(** * EKHBC node: gossip handlers, chain sync, mining coordinator, RPC submit

    A shallow embedding of [src/node/server.js] (the peer-to-peer node) and of
    the [sendTransaction] route of the RPC server that the node starts
    ([RPCServer.handleSendTransaction]).

    Conventions of the embedding.
    - JavaScript [BigInt] values are [Z]; decimal strings that the code feeds
      to [BigInt(...)] are represented by the integer they denote.
    - JavaScript numbers that the code obtains from [parseInt]/[Math.max] are
      [jsnum]: an integer, [NaN] or [-Infinity].  Integers are exact, which
      is what a double is below 2^53; strings are strings of 8-bit
      characters.  Block numbers and store keys are in that range.
    - The two LevelDB stores are [gmap string _]; block keys are the decimal
      strings produced by [Number.prototype.toString].
    - The event loop runs a handler from one suspension point to the next.
      Two kinds of suspension are kept in the node state as parked tasks
      that a later event resumes: the block-response handler waiting for
      its [verifyBlock] call, and the request loops in their 5 s pause
      between two peers.  The store and state calls awaited inside a
      handler body are taken to complete at once.  Socket sends, replies
      and worker requests are appended to the [trace] kept in the node
      state, in program order.
    - Functions of the repository that live outside the embedded files
      ([Transaction.isValid], [verifyBlock], [updateDifficulty], [changeState],
      [addTransaction], the ECDSA primitives, the constants of [config.json])
      are the fields of the class [Core]; [Scenario.core] is a small instance
      on which the handlers can be run. *)

From Stdlib Require Import ZArith Lia List Bool Ascii String.
From Stdlib Require Import DecimalString DecimalZ DecimalPos.
From stdpp Require Import gmap strings list fin_maps.

Local Open Scope string_scope.
Local Open Scope list_scope.
Local Open Scope Z_scope.

(** ** JavaScript numbers, [toString], [parseInt], [Math.max] *)

Module JS.

Inductive jsnum : Type :=
  | Num (z : Z)
  | NaN
  | NegInf.

#[global] Instance jsnum_eq_dec : EqDecision jsnum.
Proof. solve_decision. Defined.

(** [a === b] on numbers: [NaN] is different from everything. *)
Definition strict_eq (a b : jsnum) : bool :=
  match a, b with
  | Num x, Num y => x =? y
  | NegInf, NegInf => true
  | _, _ => false
  end.

(** [a > b] *)
Definition gt (a b : jsnum) : bool :=
  match a, b with
  | Num x, Num y => y <? x
  | Num _, NegInf => true
  | _, _ => false
  end.

(** [a <= b] *)
Definition le (a b : jsnum) : bool :=
  match a, b with
  | Num x, Num y => x <=? y
  | NegInf, Num _ => true
  | NegInf, NegInf => true
  | _, _ => false
  end.

(** [a + 1] *)
Definition succ (a : jsnum) : jsnum :=
  match a with
  | Num x => Num (x + 1)
  | NaN => NaN
  | NegInf => NegInf
  end.

Definition max2 (a b : jsnum) : jsnum :=
  match a, b with
  | NaN, _ | _, NaN => NaN
  | NegInf, y => y
  | x, NegInf => x
  | Num x, Num y => Num (Z.max x y)
  end.

(** [Math.max(...xs)]: [-Infinity] on no argument, [NaN] as soon as one
    argument is [NaN]. *)
Definition Math_max (xs : list jsnum) : jsnum := foldr max2 NegInf xs.

(** [n.toString()] for an integer [n]: its decimal digits, after a minus
    sign for a negative one.  This is what JavaScript prints for an integer
    of magnitude below 1e21; from there on JavaScript switches to exponent
    form, which is outside the embedding. *)
Definition toString (n : Z) : string := NilZero.string_of_int (Z.to_int n).

Definition is_white_space (c : ascii) : bool :=
  let n := nat_of_ascii c in
  ((9 <=? n) && (n <=? 13))%nat || (n =? 32)%nat.

Fixpoint trim_start (s : string) : string :=
  match s with
  | String c rest => if is_white_space c then trim_start rest else s
  | EmptyString => s
  end.

Definition digit_value (radix : Z) (c : ascii) : option Z :=
  let n := Z.of_nat (nat_of_ascii c) in
  let v :=
    if (48 <=? n) && (n <=? 57) then Some (n - 48)
    else if (97 <=? n) && (n <=? 122) then Some (n - 87)
    else if (65 <=? n) && (n <=? 90) then Some (n - 55)
    else None in
  match v with
  | Some d => if d <? radix then Some d else None
  | None => None
  end.

(** The longest prefix of radix digits; [None] while no digit was read. *)
Fixpoint parse_digits (radix : Z) (s : string) (acc : option Z) : option Z :=
  match s with
  | EmptyString => acc
  | String c rest =>
      match digit_value radix c with
      | Some d =>
          parse_digits radix rest
            (Some (match acc with Some a => a * radix + d | None => d end))
      | None => acc
      end
  end.

Definition strip_sign (s : string) : Z * string :=
  match s with
  | String "-" rest => (-1, rest)
  | String "+" rest => (1, rest)
  | _ => (1, s)
  end.

Definition strip_radix (s : string) : Z * string :=
  match s with
  | String "0" (String "x" rest) => (16, rest)
  | String "0" (String "X" rest) => (16, rest)
  | _ => (10, s)
  end.

(** [parseInt(s)] with no radix argument, on a string of 8-bit characters:
    leading white space (tab, line feed, vertical tab, form feed, carriage
    return, space) is skipped, then a sign and a [0x] prefix, then the
    longest run of digits is read.  The result is the exact integer, which
    is JavaScript's result up to 2^53; the Unicode white space JavaScript
    also skips, and its rounding and overflow to [Infinity] above that
    bound, are outside the embedding. *)
Definition parseInt (s : string) : jsnum :=
  let '(sign, s2) := strip_sign (trim_start s) in
  let '(radix, s3) := strip_radix s2 in
  match parse_digits radix s3 None with
  | Some m => Num (sign * m)
  | None => NaN
  end.

End JS.

Import JS.


(** [n.toString()] for a JavaScript number. *)
Definition toString_num (n : jsnum) : string :=
  match n with
  | Num z => toString z
  | NaN => "NaN"
  | NegInf => "-Infinity"
  end.

(** ** Data model *)

Record AdditionalData : Type := {
  contractGas : option Z;
  scBody : option string
}.

(** [BigInt(additionalData.contractGas || 0)] *)
Definition contractGas_or0 (ad : AdditionalData) : Z :=
  match contractGas ad with
  | Some g => g
  | None => 0
  end.

Module Transaction.
Record t : Type := {
    recipient : string;
    amount : Z;
    gas : Z;
    additionalData : AdditionalData;
    timestamp : Z;
    signature : string
  }.
End Transaction.

Module Block.
Record t : Type := {
    blockNumber : Z;
    timestamp : Z;
    transactions : list Transaction.t;
    difficulty : Z;
    parentHash : string;
    hash : string;
    nonce : Z
  }.
End Block.

Record Account : Type := {
  balance : Z;
  body : string;
  storage : gmap string string;
  timestamps : list Z;
  codeHash : string
}.

Module ChainInfo.
Record t : Type := {
    transactionPool : list Transaction.t;
    latestBlock : Block.t;
    latestSyncBlock : option Block.t;
    difficulty : Z
  }.
End ChainInfo.

Record KeyPair : Type := { privateKey : string }.

(** [ec.keyFromPrivate(hex, "hex")] *)
Definition keyFromPrivate (hex : string) : KeyPair := {| privateKey := hex |}.

Definition MINT_PRIVATE_ADDRESS : string :=
  "0000000000000000000000000000000000000000000000000000000000000001".
Definition MINT_KEY_PAIR : KeyPair := keyFromPrivate MINT_PRIVATE_ADDRESS.

(** An entry of [opened]: the socket is identified by the URL it dialled. *)
Module Peer.
Record t : Type := { socket : string; address : string }.
End Peer.

(** The wire messages, [produceMessage(type, data)]. *)
Inductive Message : Type :=
  | HANDSHAKE (address : string)
  | CREATE_TRANSACTION (transaction : Transaction.t)
  | NEW_BLOCK (newBlock : Block.t)
  | REQUEST_BLOCK (blockNumber : jsnum) (requestAddress : string)
  | SEND_BLOCK (block : Block.t)
  | UNKNOWN.

(** What a handler does to the outside, in program order. *)
Inductive Effect : Type :=
  | Send (socket : string) (m : Message)
  | Dial (address : string)
  | WorkerMine (block : Block.t) (difficulty : Z)
  | WorkerRespawn
  | Reply (status : Z) (success : bool) (message : string)
  | AddTransaction (transaction : Transaction.t)
  | LogError.

Inductive Exn : Type :=
  | TypeError
  | LevelNotFound
  | Rejected.

(** The [transaction] parameter of an RPC request body. *)
Inductive JsValue : Type :=
  | JsUndefined
  | JsNull
  | JsBoolean (b : bool)
  | JsNumber (n : JS.jsnum)
  | JsString (s : string)
  | JsObject (transaction : Transaction.t).

(** The closure of [loopMine]: its parameter and its two locals. *)
Record LoopMine : Type := {
  lm_ENABLE_CHAIN_REQUEST : bool;
  lm_length : Z;
  lm_mining : bool
}.

(** The options of [startServer], after their [||] defaults. *)
Record Options : Type := {
  PEERS : list string;
  MY_ADDRESS : string;
  ENABLE_MINING : bool;
  ENABLE_LOGGING : bool;
  ENABLE_RPC : bool;
  opt_ENABLE_CHAIN_REQUEST : bool;
  publicKey : string
}.

(** A handler parked at an [await], with what it needs to go on.
    - [AwaitVerify block verified]: the block-response handler waiting at
      [await verifyBlock(block, chainInfo, stateDB)]; [verified] is the value
      of that call.
    - [RequestLoop index]: one of the two [for (const node of opened)] loops
      that ask for [currentSyncBlock], in its 5 s pause; [index] is the
      position its array iterator reads next. *)
Inductive Task : Type :=
  | AwaitVerify (block : Block.t) (verified : bool)
  | RequestLoop (index : nat).

(** The module-level and [startServer]-level mutable state of the node. *)
Record Node : Type := {
  chainInfo : ChainInfo.t;
  stateDB : gmap string Account;
  blockDB : gmap string Block.t;
  opened : list Peer.t;
  connected : list string;
  ENABLE_CHAIN_REQUEST : bool;
  currentSyncBlock : jsnum;
  mined : bool;
  worker : nat;
  loop : option LoopMine;
  trace : list Effect;
  suspended : list Task
}.

Inductive outcome : Type :=
  | Done (s : Node)
  | Threw (e : Exn) (s : Node).

Definition state_of (o : outcome) : Node :=
  match o with
  | Done s => s
  | Threw _ s => s
  end.

(** The modules that [server.js] requires and that are not embedded here. *)
Class Core : Type := {
  SHA256 : string -> string;
  getPubKey : Transaction.t -> string;
  isValid : Transaction.t -> gmap string Account -> bool;
  ec_sign : KeyPair -> Transaction.t -> string;
  getHash : Block.t -> string;
  default_gas : Z;
  verifyBlock : Block.t -> ChainInfo.t -> gmap string Account -> bool;
  updateDifficulty : Block.t -> ChainInfo.t -> gmap string Block.t -> Z;
  changeState : Block.t -> gmap string Account -> bool -> gmap string Account;
  addTransaction :
    Transaction.t -> list Transaction.t -> gmap string Account ->
    option (list Transaction.t);
  generateGenesisBlock : Block.t;
  BLOCK_REWARD : Z;
  BLOCK_GAS_LIMIT : Z
}.

(** ** Small helpers for the stores, the arrays and the node record *)

(** [await db.keys().all()].  LevelDB lists the keys in byte order; the node
    only tests membership, counts them and takes their maximum, so the order
    of the list does not matter here. *)
Definition keys {V : Type} (db : gmap string V) : list string :=
  (map_to_list db).*1.

(** [l.includes(x)] *)
Definition includes (x : string) (l : list string) : bool :=
  existsb (String.eqb x) l.

(** [!l.find(a => a === x)]: [find] yields the element itself, and the empty
    string is falsy. *)
Definition not_found (x : string) (l : list string) : bool :=
  match List.find (String.eqb x) l with
  | None => true
  | Some EmptyString => true
  | Some _ => false
  end.

(** [l.indexOf(x)]; [None] stands for [-1]. *)
Fixpoint indexOf (x : string) (l : list string) : option nat :=
  match l with
  | [] => None
  | y :: rest =>
      if String.eqb y x then Some 0%nat
      else match indexOf x rest with
           | Some i => Some (S i)
           | None => None
           end
  end.

(** [l.splice(i, 1)]: index [-1] counts from the end. *)
Definition splice1 {A : Type} (i : option nat) (l : list A) : list A :=
  match i with
  | Some n => delete n l
  | None => delete (length l - 1)%nat l
  end.

Definition emit (es : list Effect) (s : Node) : Node :=
  {| chainInfo := chainInfo s; stateDB := stateDB s; blockDB := blockDB s;
     opened := opened s; connected := connected s;
     ENABLE_CHAIN_REQUEST := ENABLE_CHAIN_REQUEST s;
     currentSyncBlock := currentSyncBlock s; mined := mined s;
     worker := worker s; loop := loop s; trace := trace s ++ es;
     suspended := suspended s |}.

Definition set_chainInfo (c : ChainInfo.t) (s : Node) : Node :=
  {| chainInfo := c; stateDB := stateDB s; blockDB := blockDB s;
     opened := opened s; connected := connected s;
     ENABLE_CHAIN_REQUEST := ENABLE_CHAIN_REQUEST s;
     currentSyncBlock := currentSyncBlock s; mined := mined s;
     worker := worker s; loop := loop s; trace := trace s;
     suspended := suspended s |}.

Definition set_stateDB (db : gmap string Account) (s : Node) : Node :=
  {| chainInfo := chainInfo s; stateDB := db; blockDB := blockDB s;
     opened := opened s; connected := connected s;
     ENABLE_CHAIN_REQUEST := ENABLE_CHAIN_REQUEST s;
     currentSyncBlock := currentSyncBlock s; mined := mined s;
     worker := worker s; loop := loop s; trace := trace s;
     suspended := suspended s |}.

Definition set_blockDB (db : gmap string Block.t) (s : Node) : Node :=
  {| chainInfo := chainInfo s; stateDB := stateDB s; blockDB := db;
     opened := opened s; connected := connected s;
     ENABLE_CHAIN_REQUEST := ENABLE_CHAIN_REQUEST s;
     currentSyncBlock := currentSyncBlock s; mined := mined s;
     worker := worker s; loop := loop s; trace := trace s;
     suspended := suspended s |}.

Definition set_peers (o : list Peer.t) (c : list string) (s : Node) : Node :=
  {| chainInfo := chainInfo s; stateDB := stateDB s; blockDB := blockDB s;
     opened := o; connected := c;
     ENABLE_CHAIN_REQUEST := ENABLE_CHAIN_REQUEST s;
     currentSyncBlock := currentSyncBlock s; mined := mined s;
     worker := worker s; loop := loop s; trace := trace s;
     suspended := suspended s |}.

Definition set_ENABLE_CHAIN_REQUEST (b : bool) (s : Node) : Node :=
  {| chainInfo := chainInfo s; stateDB := stateDB s; blockDB := blockDB s;
     opened := opened s; connected := connected s;
     ENABLE_CHAIN_REQUEST := b;
     currentSyncBlock := currentSyncBlock s; mined := mined s;
     worker := worker s; loop := loop s; trace := trace s;
     suspended := suspended s |}.

Definition set_currentSyncBlock (n : jsnum) (s : Node) : Node :=
  {| chainInfo := chainInfo s; stateDB := stateDB s; blockDB := blockDB s;
     opened := opened s; connected := connected s;
     ENABLE_CHAIN_REQUEST := ENABLE_CHAIN_REQUEST s;
     currentSyncBlock := n; mined := mined s;
     worker := worker s; loop := loop s; trace := trace s;
     suspended := suspended s |}.

Definition set_mined (b : bool) (s : Node) : Node :=
  {| chainInfo := chainInfo s; stateDB := stateDB s; blockDB := blockDB s;
     opened := opened s; connected := connected s;
     ENABLE_CHAIN_REQUEST := ENABLE_CHAIN_REQUEST s;
     currentSyncBlock := currentSyncBlock s; mined := b;
     worker := worker s; loop := loop s; trace := trace s;
     suspended := suspended s |}.

Definition set_loop (l : option LoopMine) (s : Node) : Node :=
  {| chainInfo := chainInfo s; stateDB := stateDB s; blockDB := blockDB s;
     opened := opened s; connected := connected s;
     ENABLE_CHAIN_REQUEST := ENABLE_CHAIN_REQUEST s;
     currentSyncBlock := currentSyncBlock s; mined := mined s;
     worker := worker s; loop := l; trace := trace s;
     suspended := suspended s |}.

Definition set_suspended (l : list Task) (s : Node) : Node :=
  {| chainInfo := chainInfo s; stateDB := stateDB s; blockDB := blockDB s;
     opened := opened s; connected := connected s;
     ENABLE_CHAIN_REQUEST := ENABLE_CHAIN_REQUEST s;
     currentSyncBlock := currentSyncBlock s; mined := mined s;
     worker := worker s; loop := loop s; trace := trace s;
     suspended := l |}.

(** The running handler parks itself at an [await]. *)
Definition suspend (t : Task) (s : Node) : Node :=
  set_suspended (suspended s ++ [t]) s.

(** [worker.kill(); worker = fork(...)] *)
Definition respawn_worker (s : Node) : Node :=
  emit [WorkerRespawn]
    {| chainInfo := chainInfo s; stateDB := stateDB s; blockDB := blockDB s;
       opened := opened s; connected := connected s;
       ENABLE_CHAIN_REQUEST := ENABLE_CHAIN_REQUEST s;
       currentSyncBlock := currentSyncBlock s; mined := mined s;
       worker := S (worker s); loop := loop s; trace := trace s;
       suspended := suspended s |}.

Definition set_transactionPool (p : list Transaction.t) (c : ChainInfo.t)
  : ChainInfo.t :=
  {| ChainInfo.transactionPool := p;
     ChainInfo.latestBlock := ChainInfo.latestBlock c;
     ChainInfo.latestSyncBlock := ChainInfo.latestSyncBlock c;
     ChainInfo.difficulty := ChainInfo.difficulty c |}.

Definition set_latestBlock (b : Block.t) (c : ChainInfo.t) : ChainInfo.t :=
  {| ChainInfo.transactionPool := ChainInfo.transactionPool c;
     ChainInfo.latestBlock := b;
     ChainInfo.latestSyncBlock := ChainInfo.latestSyncBlock c;
     ChainInfo.difficulty := ChainInfo.difficulty c |}.

Definition set_latestSyncBlock (b : option Block.t) (c : ChainInfo.t)
  : ChainInfo.t :=
  {| ChainInfo.transactionPool := ChainInfo.transactionPool c;
     ChainInfo.latestBlock := ChainInfo.latestBlock c;
     ChainInfo.latestSyncBlock := b;
     ChainInfo.difficulty := ChainInfo.difficulty c |}.

Definition set_difficulty (d : Z) (c : ChainInfo.t) : ChainInfo.t :=
  {| ChainInfo.transactionPool := ChainInfo.transactionPool c;
     ChainInfo.latestBlock := ChainInfo.latestBlock c;
     ChainInfo.latestSyncBlock := ChainInfo.latestSyncBlock c;
     ChainInfo.difficulty := d |}.

Definition list_sum_Z (l : list Z) : Z := foldr Z.add 0 l.

(** Modelled from the spec: [sendMessage(message, nodes)] of
    [src/node/message.js], which is not among the sources; it sends the
    message on the socket of every node of the given table. *)
Definition sendMessage (m : Message) (nodes : list Peer.t) : list Effect :=
  map (fun node => Send (Peer.socket node) m) nodes.

(** [Σ tx.additionalData.contractGas] and [Σ tx.gas] over a list. *)
Definition sum_contractGas (l : list Transaction.t) : Z :=
  list_sum_Z
    (map (fun tx => contractGas_or0 (Transaction.additionalData tx)) l).

Definition sum_gas (l : list Transaction.t) : Z :=
  list_sum_Z (map Transaction.gas l).

(** ** The node: [src/node/server.js] *)

Section Server.

Context `{Core}.

(** [SHA256(Transaction.getPubKey(tx))] *)
Definition senderAddress (tx : Transaction.t) : string :=
  SHA256 (getPubKey tx).

(** Modelled from the spec: the constructor [new Transaction(recipient,
    amount)] of [src/core/transaction.js], which is not among the sources; it
    stores its two arguments and leaves the other fields at their defaults. *)
Definition new_Transaction (recipient : string) (amount : Z) (now : Z)
  : Transaction.t :=
  {| Transaction.recipient := recipient;
     Transaction.amount := amount;
     Transaction.gas := default_gas;
     Transaction.additionalData := {| contractGas := None; scBody := None |};
     Transaction.timestamp := now;
     Transaction.signature := "" |}.

(** Modelled from the spec: [Transaction.sign(transaction, keyPair)] of
    [src/core/transaction.js], which is not among the sources; it stores the
    ECDSA signature of the transaction under the given key. *)
Definition Transaction_sign (tx : Transaction.t) (keyPair : KeyPair)
  : Transaction.t :=
  {| Transaction.recipient := Transaction.recipient tx;
     Transaction.amount := Transaction.amount tx;
     Transaction.gas := Transaction.gas tx;
     Transaction.additionalData := Transaction.additionalData tx;
     Transaction.timestamp := Transaction.timestamp tx;
     Transaction.signature := ec_sign keyPair tx |}.

(** Modelled from the spec: the constructor [new Block(blockNumber, timestamp,
    transactions, difficulty, parentHash)] of [src/core/block.js], which is
    not among the sources; the nonce starts at 0 and the hash is computed
    from the other fields. *)
Definition new_Block (blockNumber timestamp : Z)
    (transactions : list Transaction.t) (difficulty : Z) (parentHash : string)
  : Block.t :=
  let b := {| Block.blockNumber := blockNumber;
              Block.timestamp := timestamp;
              Block.transactions := transactions;
              Block.difficulty := difficulty;
              Block.parentHash := parentHash;
              Block.hash := "";
              Block.nonce := 0 |} in
  {| Block.blockNumber := blockNumber;
     Block.timestamp := timestamp;
     Block.transactions := transactions;
     Block.difficulty := difficulty;
     Block.parentHash := parentHash;
     Block.hash := getHash b;
     Block.nonce := 0 |}.

(** The re-validation loop run after a block is accepted:
    [for (const tx of pool) if (await Transaction.isValid(tx, stateDB))
     newTransactionPool.push(tx)]. *)
Definition revalidate (pool : list Transaction.t) (db : gmap string Account)
  : list Transaction.t :=
  List.filter (fun tx => isValid tx db) pool.

(** *** [case TYPE.NEW_BLOCK] *)
Definition on_NEW_BLOCK (cfg : Options) (newBlock : Block.t) (s : Node)
  : outcome :=
  if negb (String.eqb (Block.parentHash newBlock)
             (Block.parentHash (ChainInfo.latestBlock (chainInfo s))))
     && (negb (ENABLE_CHAIN_REQUEST s)
         || (ENABLE_CHAIN_REQUEST s && JS.gt (currentSyncBlock s) (Num 1)))
  then
    if verifyBlock newBlock (chainInfo s) (stateDB s) then
      let s1 := if ENABLE_MINING cfg
                then respawn_worker (set_mined true s) else s in
      let s2 := set_chainInfo
                  (set_difficulty
                     (updateDifficulty newBlock (chainInfo s1) (blockDB s1))
                     (chainInfo s1)) s1 in
      let s3 := set_blockDB
                  (<[toString (Block.blockNumber newBlock) := newBlock]>
                     (blockDB s2)) s2 in
      let s4 := set_chainInfo (set_latestBlock newBlock (chainInfo s3)) s3 in
      let s5 := set_stateDB
                  (changeState newBlock (stateDB s4) (ENABLE_LOGGING cfg)) s4 in
      let s6 := set_chainInfo
                  (set_transactionPool
                     (revalidate (ChainInfo.transactionPool (chainInfo s5))
                        (stateDB s5))
                     (chainInfo s5)) s5 in
      let s7 := emit (sendMessage (NEW_BLOCK newBlock) (opened s6)) s6 in
      Done (if ENABLE_CHAIN_REQUEST s7
            then set_ENABLE_CHAIN_REQUEST false s7 else s7)
    else Done s
  else Done s.

(** The [forEach] of the transaction handler, as written: for every pooled
    transaction of the same sender it subtracts that transaction's amount and
    gas, and the contract gas of the incoming [transaction]. *)
Definition pool_debit (transaction : Transaction.t) (txSenderAddress : string)
    (pool : list Transaction.t) (balance : Z) : Z :=
  foldl
    (fun balance tx =>
       if String.eqb (senderAddress tx) txSenderAddress
       then balance
            - (Transaction.amount tx + Transaction.gas tx
               + contractGas_or0 (Transaction.additionalData transaction))
       else balance)
    balance pool.

(** [pool.filter(_tx => SHA256(getPubKey(_tx)) === txSenderAddress)
        .some(_tx => _tx.timestamp === transaction.timestamp)] *)
Definition timestamp_used (transaction : Transaction.t)
    (txSenderAddress : string) (pool : list Transaction.t) : bool :=
  existsb
    (fun _tx => Transaction.timestamp _tx =? Transaction.timestamp transaction)
    (List.filter (fun _tx => String.eqb (senderAddress _tx) txSenderAddress)
       pool).

(** *** [case TYPE.CREATE_TRANSACTION]

    The handler as one run: its awaited calls ([Transaction.isValid], the
    key scan and the read of the sender's account) are taken to complete at
    once.  The balance loop, the timestamp test and the push that follow
    the last of them run without a pause in the code as well. *)
Definition on_CREATE_TRANSACTION (transaction : Transaction.t) (s : Node)
  : outcome :=
  if negb (ENABLE_CHAIN_REQUEST s) then
    if negb (isValid transaction (stateDB s)) then Done s
    else
      let txSenderPubkey := getPubKey transaction in
      let txSenderAddress := SHA256 txSenderPubkey in
      if negb (includes txSenderAddress (keys (stateDB s))) then Done s
      else
        match stateDB s !! txSenderAddress with
        | None => Threw LevelNotFound s
        | Some dataFromSender =>
            let senderBalance := balance dataFromSender in
            let balance0 :=
              senderBalance - Transaction.amount transaction
              - Transaction.gas transaction
              - contractGas_or0 (Transaction.additionalData transaction) in
            let pool := ChainInfo.transactionPool (chainInfo s) in
            let balance1 :=
              pool_debit transaction txSenderAddress pool balance0 in
            if (0 <=? balance1)
               && negb (timestamp_used transaction txSenderAddress pool)
            then
              let s1 := set_chainInfo
                          (set_transactionPool (pool ++ [transaction])
                             (chainInfo s)) s in
              Done (emit (sendMessage (CREATE_TRANSACTION transaction)
                            (opened s1)) s1)
            else Done s
        end
  else Done s.

(** *** [case TYPE.REQUEST_BLOCK] *)
Definition on_REQUEST_BLOCK (blockNumber : jsnum) (requestAddress : string)
    (s : Node) : outcome :=
  if negb (ENABLE_CHAIN_REQUEST s) then
    match List.find (fun node => String.eqb (Peer.address node) requestAddress)
            (opened s) with
    | None => Threw TypeError s
    | Some node =>
        let socket := Peer.socket node in
        let currentBlockNumber := Math_max (map parseInt (keys (blockDB s))) in
        if JS.gt blockNumber (Num 0) && JS.le blockNumber currentBlockNumber
        then
          match blockDB s !! toString_num blockNumber with
          | None => Threw LevelNotFound s
          | Some block => Done (emit [Send socket (SEND_BLOCK block)] s)
          end
        else Done s
    end
  else Done s.

(** One turn of the loop
    [for (const node of opened) { node.socket.send(REQUEST_BLOCK ...);
                                  await new Promise(r => setTimeout(r, 5000)) }]
    shared by the sync timer and the block-response handler.  The array
    iterator reads [opened] at its index when the turn starts; the message
    carries the value [currentSyncBlock] has at that moment; then the loop
    parks for its pause.  Past the end of the table the loop is over. *)
Definition request_loop (cfg : Options) (index : nat) (s : Node) : Node :=
  match opened s !! index with
  | None => s
  | Some node =>
      suspend (RequestLoop (S index))
        (emit [Send (Peer.socket node)
                 (REQUEST_BLOCK (currentSyncBlock s) (MY_ADDRESS cfg))] s)
  end.

(** The body of the block-response handler, lines 206-232, from the
    increment of the sync height to the first pause of the request loop. *)
Definition take_block (cfg : Options) (block : Block.t) (s : Node) : Node :=
  let s1 := set_currentSyncBlock (JS.succ (currentSyncBlock s)) s in
  let s2 := set_blockDB
              (<[toString (Block.blockNumber block) := block]>
                 (blockDB s1)) s1 in
  let s3 := match ChainInfo.latestSyncBlock (chainInfo s2) with
            | None => set_chainInfo
                        (set_latestSyncBlock (Some block) (chainInfo s2)) s2
            | Some _ => s2
            end in
  let s4 := set_chainInfo (set_latestBlock block (chainInfo s3)) s3 in
  let s5 := set_stateDB (changeState block (stateDB s4) false) s4 in
  let s6 := set_chainInfo
              (set_difficulty
                 (updateDifficulty block (chainInfo s5) (blockDB s5))
                 (chainInfo s5)) s5 in
  request_loop cfg 0 s6.

(** *** [case TYPE.SEND_BLOCK]

    With [latestSyncBlock === null] the [||] does not reach [verifyBlock] and
    the body runs at once; otherwise the handler calls [verifyBlock] on the
    present chain info and state and parks until the call resolves. *)
Definition on_SEND_BLOCK (cfg : Options) (block : Block.t) (s : Node)
  : outcome :=
  if ENABLE_CHAIN_REQUEST s
     && JS.strict_eq (currentSyncBlock s) (Num (Block.blockNumber block))
  then
    match ChainInfo.latestSyncBlock (chainInfo s) with
    | None => Done (take_block cfg block s)
    | Some _ =>
        Done (suspend
                (AwaitVerify block
                   (verifyBlock block (chainInfo s) (stateDB s))) s)
    end
  else Done s.

(** The event loop resumes the parked task at position [k]. *)
Definition on_resume (cfg : Options) (k : nat) (s : Node) : Node :=
  match suspended s !! k with
  | None => s
  | Some t =>
      let s1 := set_suspended (delete k (suspended s)) s in
      match t with
      | AwaitVerify block true => take_block cfg block s1
      | AwaitVerify _ false => s1
      | RequestLoop index => request_loop cfg index s1
      end
  end.

(** *** [connect(MY_ADDRESS, address)] and its socket callbacks *)
Definition connect (MY_ADDRESS address : string) (s : Node) : Node :=
  if not_found address (connected s) && negb (String.eqb address MY_ADDRESS)
  then emit [Dial address] s
  else s.

(** [socket.on("open", ...)] of the socket dialled to [address]. *)
Definition on_open (MY_ADDRESS address : string) (s : Node) : Node :=
  let s1 := emit (map (fun _address => Send address (HANDSHAKE _address))
                    (MY_ADDRESS :: connected s)) s in
  let s2 := emit (map (fun node => Send (Peer.socket node) (HANDSHAKE address))
                    (opened s1)) s1 in
  let s3 :=
    if negb (existsb (fun peer => String.eqb (Peer.address peer) address)
               (opened s2))
       && negb (String.eqb address MY_ADDRESS)
    then set_peers
           (opened s2
            ++ [{| Peer.socket := address; Peer.address := address |}])
           (connected s2) s2
    else s2 in
  if not_found address (connected s3) && negb (String.eqb address MY_ADDRESS)
  then set_peers (opened s3) (connected s3 ++ [address]) s3
  else s3.

(** [socket.on("close", ...)] *)
Definition on_close (address : string) (s : Node) : Node :=
  let s1 := set_peers (splice1 (indexOf address (connected s)) (opened s))
              (connected s) s in
  set_peers (opened s1)
    (splice1 (indexOf address (connected s1)) (connected s1)) s1.

(** *** The message handler of a connection *)
Definition on_message (cfg : Options) (m : Message) (s : Node) : outcome :=
  match m with
  | NEW_BLOCK newBlock => on_NEW_BLOCK cfg newBlock s
  | CREATE_TRANSACTION transaction => on_CREATE_TRANSACTION transaction s
  | REQUEST_BLOCK blockNumber requestAddress =>
      on_REQUEST_BLOCK blockNumber requestAddress s
  | SEND_BLOCK block => on_SEND_BLOCK cfg block s
  | HANDSHAKE address => Done (connect (MY_ADDRESS cfg) address s)
  | UNKNOWN => Done s
  end.

(** *** [mine(publicKey, ENABLE_LOGGING)] *)

(** The selection loop: [transactionsToMine], [totalContractGas] and
    [totalTxGas] are the three locals it updates; the first branch is its
    [break]. *)
Fixpoint collect (pool transactionsToMine : list Transaction.t)
    (totalContractGas totalTxGas : Z) : list Transaction.t * Z * Z :=
  match pool with
  | [] => (transactionsToMine, totalContractGas, totalTxGas)
  | tx :: rest =>
      if totalContractGas + contractGas_or0 (Transaction.additionalData tx)
         >=? BLOCK_GAS_LIMIT
      then (transactionsToMine, totalContractGas, totalTxGas)
      else collect rest (transactionsToMine ++ [tx])
             (totalContractGas
              + contractGas_or0 (Transaction.additionalData tx))
             (totalTxGas
              + (Transaction.gas tx
                 + contractGas_or0 (Transaction.additionalData tx)))
  end.

Definition transactionsToMine (pool : list Transaction.t)
  : list Transaction.t :=
  (collect pool [] 0 0).1.1.

Definition totalTxGas (pool : list Transaction.t) : Z :=
  (collect pool [] 0 0).2.

(** The reward transaction before it is signed. *)
Definition unsigned_reward (publicKey : string) (now : Z)
    (pool : list Transaction.t) : Transaction.t :=
  new_Transaction (SHA256 publicKey) (BLOCK_REWARD + totalTxGas pool) now.

Definition rewardTransaction (publicKey : string) (now : Z)
    (pool : list Transaction.t) : Transaction.t :=
  Transaction_sign (unsigned_reward publicKey now pool) MINT_KEY_PAIR.

(** The candidate block handed to the worker. *)
Definition candidate (publicKey : string) (now : Z) (c : ChainInfo.t)
  : Block.t :=
  new_Block
    (Block.blockNumber (ChainInfo.latestBlock c) + 1)
    now
    (rewardTransaction publicKey now (ChainInfo.transactionPool c)
     :: transactionsToMine (ChainInfo.transactionPool c))
    (ChainInfo.difficulty c)
    (Block.hash (ChainInfo.latestBlock c)).

Definition mine (cfg : Options) (now : Z) (s : Node) : Node :=
  emit [WorkerMine (candidate (publicKey cfg) now (chainInfo s))
          (ChainInfo.difficulty (chainInfo s))] s.

(** The [.then] callback of [mine]: the worker reported [result]. *)
Definition on_mined (cfg : Options) (result : Block.t) (s : Node) : Node :=
  let s' :=
    if negb (mined s) then
      let s1 := set_chainInfo
                  (set_difficulty
                     (updateDifficulty result (chainInfo s) (blockDB s))
                     (chainInfo s)) s in
      let s2 := set_blockDB
                  (<[toString (Block.blockNumber result) := result]>
                     (blockDB s1)) s1 in
      let s3 := set_chainInfo (set_latestBlock result (chainInfo s2)) s2 in
      let s4 := set_stateDB
                  (changeState (ChainInfo.latestBlock (chainInfo s3))
                     (stateDB s3) (ENABLE_LOGGING cfg)) s3 in
      let s5 := set_chainInfo
                  (set_transactionPool
                     (revalidate (ChainInfo.transactionPool (chainInfo s4))
                        (stateDB s4))
                     (chainInfo s4)) s4 in
      emit (sendMessage (NEW_BLOCK (ChainInfo.latestBlock (chainInfo s5)))
              (opened s5)) s5
    else set_mined false s in
  respawn_worker s'.

(** *** [loopMine(publicKey, ENABLE_CHAIN_REQUEST, ENABLE_LOGGING)] *)
Definition loopMine (ENABLE_CHAIN_REQUEST : bool) (s : Node) : Node :=
  set_loop
    (Some {| lm_ENABLE_CHAIN_REQUEST := ENABLE_CHAIN_REQUEST;
             lm_length :=
               Block.blockNumber (ChainInfo.latestBlock (chainInfo s));
             lm_mining := true |}) s.

(** One firing of the [setInterval] callback of [loopMine]. *)
Definition on_tick (cfg : Options) (now : Z) (s : Node) : Node :=
  match loop s with
  | None => s
  | Some lm =>
      if lm_mining lm
         || negb (lm_length lm
                  =? Block.blockNumber (ChainInfo.latestBlock (chainInfo s)))
      then
        let s1 :=
          set_loop
            (Some {| lm_ENABLE_CHAIN_REQUEST := lm_ENABLE_CHAIN_REQUEST lm;
                     lm_length :=
                       Block.blockNumber (ChainInfo.latestBlock (chainInfo s));
                     lm_mining := false |}) s in
        if negb (lm_ENABLE_CHAIN_REQUEST lm) then mine cfg now s1 else s1
      else s
  end.

(** *** [sendTransaction(transaction)], the callback given to the RPC server *)
Definition sendTransaction (transaction : Transaction.t) (s : Node)
  : outcome :=
  let s1 := emit (sendMessage (CREATE_TRANSACTION transaction) (opened s)) s in
  let s2 := emit [AddTransaction transaction] s1 in
  match addTransaction transaction (ChainInfo.transactionPool (chainInfo s2))
          (stateDB s2) with
  | Some pool =>
      Done (set_chainInfo (set_transactionPool pool (chainInfo s2)) s2)
  | None => Threw Rejected s2
  end.

(** ** The RPC route: [RPCServer.handleSendTransaction] *)

Definition received : string :=
  "Transaction received and queued for processing".
Definition invalid_request : string :=
  "Invalid request: transaction parameter required".

Definition handleSendTransaction (transaction : JsValue) (s : Node) : Node :=
  match transaction with
  | JsObject tx =>
      let s1 := emit [Reply 200 true received] s in
      match sendTransaction tx s1 with
      | Done s2 => s2
      | Threw _ s2 => emit [LogError] s2
      end
  | _ => emit [Reply 400 false invalid_request] s
  end.

(** ** Startup: the body of [startServer] after the server is created *)

(** The sync height computed at lines 260-267. *)
Definition sync_start (db : gmap string Block.t) : jsnum :=
  let blockNumbers := keys db in
  if negb (length blockNumbers =? 0)%nat
  then Math_max (map parseInt blockNumbers)
  else Num 1.

Definition boot (opts : Options) (stateDB0 : gmap string Account)
    (blockDB0 : gmap string Block.t) : Node :=
  {| chainInfo :=
       {| ChainInfo.transactionPool := [];
          ChainInfo.latestBlock := generateGenesisBlock;
          ChainInfo.latestSyncBlock := None;
          ChainInfo.difficulty := 1 |};
     stateDB := stateDB0;
     blockDB := blockDB0;
     opened := [];
     connected := [];
     ENABLE_CHAIN_REQUEST := opt_ENABLE_CHAIN_REQUEST opts;
     currentSyncBlock := Num 1;
     mined := false;
     worker := 0%nat;
     loop := None;
     trace := [];
     suspended := [] |}.

(** Lines 246-255: a node that does not sync loads its own chain. *)
Definition load_chain (s : Node) : outcome :=
  if negb (ENABLE_CHAIN_REQUEST s) then
    if (length (keys (blockDB s)) =? 0)%nat then
      let genesis := ChainInfo.latestBlock (chainInfo s) in
      let s1 := set_blockDB
                  (<[toString (Block.blockNumber genesis) := genesis]>
                     (blockDB s)) s in
      Done (set_stateDB (changeState genesis (stateDB s1) false) s1)
    else
      match blockDB s
            !! toString_num (Math_max (map parseInt (keys (blockDB s)))) with
      | None => Threw LevelNotFound s
      | Some b =>
          let s1 := set_chainInfo (set_latestBlock b (chainInfo s)) s in
          Done (set_chainInfo
                  (set_difficulty
                     (Block.difficulty (ChainInfo.latestBlock (chainInfo s1)))
                     (chainInfo s1)) s1)
      end
  else Done s.

Definition startServer (opts : Options) (stateDB0 : gmap string Account)
    (blockDB0 : gmap string Block.t) : outcome :=
  match load_chain (boot opts stateDB0 blockDB0) with
  | Threw e s => Threw e s
  | Done s1 =>
      let s2 := foldl (fun s peer => connect (MY_ADDRESS opts) peer s)
                  s1 (PEERS opts) in
      let s3 := if ENABLE_CHAIN_REQUEST s2
                then set_currentSyncBlock (sync_start (blockDB s2)) s2
                else set_currentSyncBlock (Num 1) s2 in
      Done (if ENABLE_MINING opts
            then loopMine (ENABLE_CHAIN_REQUEST s3) s3 else s3)
  end.

(** The [setTimeout] callback armed when the node starts in sync mode: the
    first turn of its request loop. *)
Definition on_sync_timer (cfg : Options) (s : Node) : Node :=
  if opt_ENABLE_CHAIN_REQUEST cfg then request_loop cfg 0 s else s.

(** ** The event loop

    What the environment can make the node do: deliver a message, open or
    close a socket, fire the sync timer or the mining interval, report a
    worker result, submit a transaction over RPC, or let the parked task at
    position [k] go on (its [verifyBlock] call resolved, or its pause is
    over). *)

Inductive Event : Type :=
  | EvMessage (m : Message)
  | EvOpen (address : string)
  | EvClose (address : string)
  | EvSyncTimer
  | EvTick (now : Z)
  | EvMined (result : Block.t)
  | EvRpcSendTransaction (transaction : JsValue)
  | EvResume (k : nat).

(** An uncaught exception is logged and the node goes on with the state the
    handler left. *)
Definition step (cfg : Options) (s : Node) (e : Event) : Node :=
  match e with
  | EvMessage m => state_of (on_message cfg m s)
  | EvOpen address => on_open (MY_ADDRESS cfg) address s
  | EvClose address => on_close address s
  | EvSyncTimer => on_sync_timer cfg s
  | EvTick now => on_tick cfg now s
  | EvMined result => on_mined cfg result s
  | EvRpcSendTransaction transaction => handleSendTransaction transaction s
  | EvResume k => on_resume cfg k s
  end.

Definition run (cfg : Options) (s : Node) (events : list Event) : Node :=
  foldl (step cfg) s events.

(** Events of the gossip and mining paths: everything but an RPC submission. *)
Definition gossip_path (e : Event) : bool :=
  match e with
  | EvRpcSendTransaction _ => false
  | _ => true
  end.

(** The worker requests found in a trace. *)
Definition dispatched (t : list Effect) : list (Block.t * Z) :=
  omap (fun e => match e with
                 | WorkerMine b d => Some (b, d)
                 | _ => None
                 end) t.

(** The pool invariant: no two pooled transactions of one sender carry the
    same timestamp. *)
Fixpoint distinct_timestamps (pool : list Transaction.t) : Prop :=
  match pool with
  | [] => True
  | tx :: rest =>
      (forall tx', In tx' rest ->
         senderAddress tx' = senderAddress tx ->
         Transaction.timestamp tx' <> Transaction.timestamp tx)
      /\ distinct_timestamps rest
  end.

(** The pool of a node. *)
Definition pool_of (s : Node) : list Transaction.t :=
  ChainInfo.transactionPool (chainInfo s).

(** The state after a transaction was admitted by the gossip handler. *)
Definition admitted (transaction : Transaction.t) (s : Node) : Node :=
  let s1 := set_chainInfo
              (set_transactionPool (pool_of s ++ [transaction]) (chainInfo s))
              s in
  emit (sendMessage (CREATE_TRANSACTION transaction) (opened s1)) s1.

(** The test the gossip handler applies to an incoming transaction. *)
Definition admits (transaction : Transaction.t) (s : Node) : bool :=
  isValid transaction (stateDB s)
  && match stateDB s !! senderAddress transaction with
     | Some dataFromSender =>
         0 <=? pool_debit transaction (senderAddress transaction) (pool_of s)
                 (balance dataFromSender - Transaction.amount transaction
                  - Transaction.gas transaction
                  - contractGas_or0 (Transaction.additionalData transaction))
     | None => false
     end
  && negb (timestamp_used transaction (senderAddress transaction) (pool_of s)).

(** The projected balance the handler is documented to check: the stored
    balance minus the cost of the incoming transaction and minus the cost
    (amount, gas and its own contract gas) of every pooled transaction of the
    same sender. *)
Definition cost (tx : Transaction.t) : Z :=
  Transaction.amount tx + Transaction.gas tx
  + contractGas_or0 (Transaction.additionalData tx).

Definition projected_balance (transaction : Transaction.t)
    (pool : list Transaction.t) (senderBalance : Z) : Z :=
  senderBalance - cost transaction
  - list_sum_Z
      (map cost
         (List.filter
            (fun tx =>
               String.eqb (senderAddress tx) (senderAddress transaction))
            pool)).

End Server.

(** ** Predicates used by the invariants *)

(** [s'] differs from [s] by effects other than a worker request, and the
    closure of [loopMine] is the same. *)
Definition quiet (s s' : Node) : Prop :=
  loop s' = loop s /\ dispatched (trace s') = dispatched (trace s).

(** The loop closure keeps the flag it was created with and, while that flag
    is set, no worker request has been made. *)
Definition loop_blocked (s : Node) : Prop :=
  (exists lm, loop s = Some lm /\ lm_ENABLE_CHAIN_REQUEST lm = true)
  /\ dispatched (trace s) = [].

(** ** A small concrete chain, used to run the handlers on explicit inputs *)

Module Scenario.

Definition sha (s : string) : string := String "#" s.

Definition credit (r : string) (a : Z) (db : gmap string Account)
  : gmap string Account :=
  match db !! r with
  | Some acc =>
      <[r := {| balance := balance acc + a; body := body acc;
                storage := storage acc; timestamps := timestamps acc;
                codeHash := codeHash acc |}]> db
  | None =>
      <[r := {| balance := a; body := ""; storage := ∅; timestamps := [];
                codeHash := "" |}]> db
  end.

Definition MIN_TX_FEE : Z := 1000000000000.

(** The sender has an account that covers amount, gas and contract gas, the
    timestamp is not among those the sender consumed, and the gas reaches the
    minimum fee. *)
Definition valid (tx : Transaction.t) (db : gmap string Account) : bool :=
  match db !! sha (Transaction.signature tx) with
  | Some acc =>
      (Transaction.amount tx + Transaction.gas tx
       + contractGas_or0 (Transaction.additionalData tx) <=? balance acc)
      && negb (existsb (Z.eqb (Transaction.timestamp tx)) (timestamps acc))
      && (MIN_TX_FEE <=? Transaction.gas tx)
  | None => false
  end.

Definition genesis : Block.t :=
  {| Block.blockNumber := 0; Block.timestamp := 0; Block.transactions := [];
     Block.difficulty := 1; Block.parentHash := ""; Block.hash := "g";
     Block.nonce := 0 |}.

(** The signer's key stands for the signature, the chain link is the only
    block rule, a block credits its recipients, difficulty never moves. *)
#[export] Instance core : Core :=
  {| SHA256 := sha;
     getPubKey := Transaction.signature;
     isValid := valid;
     ec_sign := fun keyPair _ => privateKey keyPair;
     getHash := fun b => toString (Block.blockNumber b);
     default_gas := 0;
     verifyBlock := fun b c _ =>
       (Block.blockNumber b
        =? Block.blockNumber (ChainInfo.latestBlock c) + 1)
       && String.eqb (Block.parentHash b)
            (Block.hash (ChainInfo.latestBlock c));
     updateDifficulty := fun _ c _ => ChainInfo.difficulty c;
     changeState := fun b db _ =>
       foldl (fun db tx =>
                credit (Transaction.recipient tx) (Transaction.amount tx) db)
         db (Block.transactions b);
     addTransaction := fun tx pool db =>
       Some (if valid tx db then pool ++ [tx] else pool);
     generateGenesisBlock := genesis;
     BLOCK_REWARD := 202297000000000000;
     BLOCK_GAS_LIMIT := 50000000 |}.

Definition account (b : Z) : Account :=
  {| balance := b; body := ""; storage := ∅; timestamps := [];
     codeHash := "" |}.

Definition transfer (signer recipient : string) (amount gas : Z)
    (contractGas : option Z) (timestamp : Z) : Transaction.t :=
  {| Transaction.recipient := recipient;
     Transaction.amount := amount;
     Transaction.gas := gas;
     Transaction.additionalData :=
       {| contractGas := contractGas; scBody := None |};
     Transaction.timestamp := timestamp;
     Transaction.signature := signer |}.

(** A transfer at the minimum fee. *)
Definition pay (signer recipient : string) (amount : Z)
    (contractGas : option Z) (timestamp : Z) : Transaction.t :=
  transfer signer recipient amount MIN_TX_FEE contractGas timestamp.

Definition funds : Z := 5000000000000.

Definition options (mining sync : bool) : Options :=
  {| PEERS := []; MY_ADDRESS := "ws://a"; ENABLE_MINING := mining;
     ENABLE_LOGGING := false; ENABLE_RPC := true;
     opt_ENABLE_CHAIN_REQUEST := sync; publicKey := "miner" |}.

Definition peer (a : string) : Peer.t :=
  {| Peer.socket := a; Peer.address := a |}.

(** A synced node with one account ["#alice"] holding [b], the given pool and
    the given open peers. *)
Definition node (b : Z) (pool : list Transaction.t) (peers : list Peer.t)
    (sync : bool) (height : jsnum) (lsb : option Block.t) : Node :=
  {| chainInfo :=
       {| ChainInfo.transactionPool := pool;
          ChainInfo.latestBlock := genesis;
          ChainInfo.latestSyncBlock := lsb;
          ChainInfo.difficulty := 1 |};
     stateDB := {[ sha "alice" := account b ]};
     blockDB := {[ "0" := genesis ]};
     opened := peers;
     connected := map Peer.address peers;
     ENABLE_CHAIN_REQUEST := sync;
     currentSyncBlock := height;
     mined := false;
     worker := 0%nat;
     loop := None;
     trace := [];
     suspended := [] |}.

(** A block store that holds the genesis block only. *)
Definition genesis_only : gmap string Block.t := {[ "0" := genesis ]}.

(** A synced node with one open peer. *)
Definition synced (pool : list Transaction.t) : Node :=
  node funds pool [peer "ws://b"] false (Num 1) None.

Definition block1 : Block.t :=
  {| Block.blockNumber := 1; Block.timestamp := 5; Block.transactions := [];
     Block.difficulty := 1; Block.parentHash := "g"; Block.hash := "h1";
     Block.nonce := 7 |}.

End Scenario.

(** Two runs of the event loop on the concrete chain. *)

Definition block2 : Block.t :=
  {| Block.blockNumber := 2; Block.timestamp := 8; Block.transactions := [];
     Block.difficulty := 1; Block.parentHash := "h1"; Block.hash := "h2";
     Block.nonce := 3 |}.

Definition sync_then_gossip : list Event :=
  [EvOpen "ws://b"; EvSyncTimer; EvMessage (SEND_BLOCK Scenario.block1);
   EvMessage (NEW_BLOCK block2); EvTick 9; EvTick 10].

Definition alice_funded : gmap string Account :=
  {[ Scenario.sha "alice" := Scenario.account Scenario.funds ]}.

Definition replayed_submissions : list Event :=
  [EvOpen "ws://b";
   EvMessage (CREATE_TRANSACTION (Scenario.pay "alice" "bob" 10 None 1));
   EvMessage (CREATE_TRANSACTION (Scenario.pay "alice" "carol" 5 None 1));
   EvMessage (CREATE_TRANSACTION (Scenario.pay "alice" "carol" 5 None 2))].

(** ** Predicates on the stores, the peer table and the pool *)

(** Every block of the store sits under the printed form of its own
    number. *)
Definition well_keyed (db : gmap string Block.t) : Prop :=
  forall k b, db !! k = Some b -> k = toString (Block.blockNumber b).

(** The two peer tables list the same addresses in the same order, without
    repetition and without the node's own address; every socket is the one
    dialled to the peer's address. *)
Definition peers_ok (MY_ADDRESS : string) (s : Node) : Prop :=
  map Peer.address (opened s) = connected s
  /\ NoDup (connected s)
  /\ ~ In MY_ADDRESS (connected s)
  /\ (forall p, In p (opened s) -> Peer.socket p = Peer.address p).

(** Socket events carry the URL the socket was dialled to, which is never the
    empty string. *)
Definition named_sockets (e : Event) : bool :=
  match e with
  | EvOpen a => negb (String.eqb a "")
  | _ => true
  end.

(** The addresses the node asked a socket for. *)
Definition dialled (t : list Effect) : list string :=
  omap (fun e => match e with
                 | Dial a => Some a
                 | _ => None
                 end) t.

Definition is_tick (e : Event) : bool :=
  match e with
  | EvTick _ => true
  | _ => false
  end.

Section Predicates.

Context `{Core}.

(** Every pooled transaction passes [Transaction.isValid] on the current
    state. *)
Definition valid_pool (s : Node) : Prop :=
  Forall (fun tx => isValid tx (stateDB s) = true) (pool_of s).

(** The state after [case TYPE.NEW_BLOCK] accepted [newBlock] on node [s]. *)
Definition accepted_block (cfg : Options) (newBlock : Block.t) (s : Node)
    (s' : Node) : Prop :=
  blockDB s' = <[toString (Block.blockNumber newBlock) := newBlock]> (blockDB s)
  /\ ChainInfo.latestBlock (chainInfo s') = newBlock
  /\ ChainInfo.latestSyncBlock (chainInfo s')
     = ChainInfo.latestSyncBlock (chainInfo s)
  /\ ChainInfo.difficulty (chainInfo s')
     = updateDifficulty newBlock (chainInfo s) (blockDB s)
  /\ stateDB s' = changeState newBlock (stateDB s) (ENABLE_LOGGING cfg)
  /\ pool_of s' = revalidate (pool_of s) (stateDB s')
  /\ ENABLE_CHAIN_REQUEST s' = false
  /\ currentSyncBlock s' = currentSyncBlock s
  /\ opened s' = opened s
  /\ mined s' = (if ENABLE_MINING cfg then true else mined s)
  /\ worker s' = (if ENABLE_MINING cfg then S (worker s) else worker s)
  /\ trace s'
     = trace s
       ++ (if ENABLE_MINING cfg then [WorkerRespawn] else [])
       ++ sendMessage (NEW_BLOCK newBlock) (opened s).

(** The state [s'] that the body of the block-response handler leaves when
    it takes [block] on state [s]: the block is stored under its printed
    number, the sync height moves up by one, the block becomes the head (and
    the first synced block if there was none), the state and the difficulty
    are moved, and the first open peer, if there is one, is asked for the new
    sync height while the request loop parks before its second turn. *)
Definition took_block (cfg : Options) (block : Block.t) (s s' : Node) : Prop :=
  blockDB s' = <[toString (Block.blockNumber block) := block]> (blockDB s)
  /\ currentSyncBlock s' = JS.succ (currentSyncBlock s)
  /\ ChainInfo.latestBlock (chainInfo s') = block
  /\ ChainInfo.latestSyncBlock (chainInfo s')
     = match ChainInfo.latestSyncBlock (chainInfo s) with
       | None => Some block
       | Some b => Some b
       end
  /\ stateDB s' = changeState block (stateDB s) false
  /\ ChainInfo.difficulty (chainInfo s')
     = updateDifficulty block
         {| ChainInfo.transactionPool :=
              ChainInfo.transactionPool (chainInfo s);
            ChainInfo.latestBlock := block;
            ChainInfo.latestSyncBlock :=
              ChainInfo.latestSyncBlock (chainInfo s');
            ChainInfo.difficulty := ChainInfo.difficulty (chainInfo s) |}
         (blockDB s')
  /\ ChainInfo.transactionPool (chainInfo s')
     = ChainInfo.transactionPool (chainInfo s)
  /\ ENABLE_CHAIN_REQUEST s' = ENABLE_CHAIN_REQUEST s
  /\ opened s' = opened s
  /\ match opened s with
     | [] => trace s' = trace s /\ suspended s' = suspended s
     | node :: _ =>
         trace s'
         = trace s
           ++ [Send (Peer.socket node)
                 (REQUEST_BLOCK (JS.succ (currentSyncBlock s))
                    (MY_ADDRESS cfg))]
         /\ suspended s' = suspended s ++ [RequestLoop 1]
     end.

(** The pool of a syncing node is empty. *)
Definition pool_inv (s : Node) : Prop :=
  ENABLE_CHAIN_REQUEST s = true -> pool_of s = [].

(** The admission rule as the handler's comment states it: the transaction is
    valid, the sender's balance covers it together with the sender's pooled
    transactions, and its timestamp is not used by one of them. *)
Definition documented_rule (tx : Transaction.t) (s : Node) : Prop :=
  isValid tx (stateDB s) = true
  /\ (exists acc,
        stateDB s !! senderAddress tx = Some acc
        /\ 0 <= projected_balance tx (pool_of s) (balance acc))
  /\ (forall tx', In tx' (pool_of s) ->
        senderAddress tx' = senderAddress tx ->
        Transaction.timestamp tx' <> Transaction.timestamp tx).

End Predicates.

(** ** The query routes of the RPC server *)

Module RPC.

(** A request parameter that the routes test with [typeof x !== "number"];
    the numbers considered are the integers. *)
Inductive Param : Type :=
  | PNumber (n : Z)
  | PNotNumber.

Inductive Payload : Type :=
  | PBlock (block : Block.t)
  | PTransaction (transaction : option Transaction.t)
  | PCount (count : nat)
  | PWork (hash : string) (nonce : Z) (blockNumber : jsnum).

(** [respondSuccess(reply, payload)] and [respondError(reply, message,
    status)]. *)
Inductive Response : Type :=
  | Success (payload : Payload)
  | Failure (status : Z) (message : string).

Definition is_NaN (n : jsnum) : bool :=
  match n with
  | NaN => true
  | _ => false
  end.

(** [getCurrentBlockNumber()] *)
Definition getCurrentBlockNumber (blockDB : gmap string Block.t) : jsnum :=
  let keys := keys blockDB in
  let blockNumbers :=
    List.filter (fun num => negb (is_NaN num)) (map parseInt keys) in
  if (0 <? length blockNumbers)%nat then Math_max blockNumbers else Num 0.

(** [handleGetBlockByNumber] *)
Definition handleGetBlockByNumber (blockNumber : Param)
    (blockDB : gmap string Block.t) : Response :=
  match blockNumber with
  | PNotNumber =>
      Failure 400 "Invalid request: valid blockNumber parameter required"
  | PNumber n =>
      if n <? 0
      then Failure 400 "Invalid request: valid blockNumber parameter required"
      else
        let currentBlockNumber := getCurrentBlockNumber blockDB in
        if JS.gt (Num n) currentBlockNumber
        then Failure 400 "Block number too high"
        else
          match blockDB !! toString n with
          | Some block => Success (PBlock block)
          | None => Failure 400 "Block not found"
          end
  end.

(** The test [blockNumber <= 0 || blockNumber > currentBlockNumber] shared by
    the two routes that go from a block number to its transactions. *)
Definition invalid_block_number (n : Z) (currentBlockNumber : jsnum) : bool :=
  JS.le (Num n) (Num 0) || JS.gt (Num n) currentBlockNumber.

(** [handleGetTransactionByBlockNumberAndIndex] *)
Definition handleGetTransactionByBlockNumberAndIndex
    (blockNumber index : Param) (blockDB : gmap string Block.t) : Response :=
  match blockNumber, index with
  | PNumber n, PNumber i =>
      let currentBlockNumber := getCurrentBlockNumber blockDB in
      if invalid_block_number n currentBlockNumber
      then Failure 400 "Invalid block number"
      else
        match blockDB !! toString n with
        | None => Failure 500 "Failed to retrieve transaction"
        | Some block =>
            if (i <? 0)
               || (i >=? Z.of_nat (length (Block.transactions block)))
            then Failure 400 "Invalid transaction index"
            else Success
                   (PTransaction (Block.transactions block !! Z.to_nat i))
        end
  | _, _ =>
      Failure 400 "Invalid request: blockNumber and index parameters required"
  end.

(** [handleGetBlockTransactionCountByNumber] *)
Definition handleGetBlockTransactionCountByNumber (blockNumber : Param)
    (blockDB : gmap string Block.t) : Response :=
  match blockNumber with
  | PNotNumber =>
      Failure 400 "Invalid request: blockNumber parameter required"
  | PNumber n =>
      let currentBlockNumber := getCurrentBlockNumber blockDB in
      if invalid_block_number n currentBlockNumber
      then Failure 400 "Invalid block number"
      else
        match blockDB !! toString n with
        | None => Failure 500 "Failed to retrieve block"
        | Some block => Success (PCount (length (Block.transactions block)))
        end
  end.

(** [handleGetWork] *)
Definition handleGetWork (blockDB : gmap string Block.t) : Response :=
  let currentBlockNumber := getCurrentBlockNumber blockDB in
  if JS.strict_eq currentBlockNumber (Num 0)
  then Failure 400 "No blocks available"
  else
    match blockDB !! toString_num currentBlockNumber with
    | None => Failure 500 "Failed to get work"
    | Some latestBlock =>
        Success (PWork (Block.hash latestBlock) (Block.nonce latestBlock)
                   currentBlockNumber)
    end.

End RPC.

(** ** The explorer front of [index.js]: which request goes where *)

Module Explorer.

Inductive Action : Type :=
  | Preflight
  | ServeFile (filePath : string)
  | ProxyTo (port : Z) (path : string)
  | NotFound.

(** [s.startsWith(p)] *)
Definition startsWith (p s : string) : bool := String.prefix p s.

(** [s.replace(pattern, replacement)] with a string pattern: the first
    occurrence only. *)
Fixpoint replace (pattern replacement s : string) : string :=
  if String.prefix pattern s
  then (replacement
        ++ String.substring (String.length pattern)
             (String.length s - String.length pattern) s)%string
  else match s with
       | EmptyString => s
       | String c rest => String c (replace pattern replacement rest)
       end.

(** The request listener up to the point where it reads a file or opens the
    proxy request. *)
Definition route (method url : string) : Action :=
  if String.eqb method "OPTIONS" then Preflight
  else if String.eqb url "/" || String.eqb url "/explorer"
          || String.eqb url "/dashboard"
  then ServeFile "./explorer.html"
  else if startsWith "/rpc/" url
  then ProxyTo 3000 (replace "/rpc" "" url)
  else NotFound.

End Explorer.

(** A syncing node with two open peers that awaits height 1, and a run in
    which the first peer answers twice within the pause of the request
    loop. *)
Definition syncing2 : Node :=
  Scenario.node Scenario.funds []
    [Scenario.peer "ws://b"; Scenario.peer "ws://c"] true (Num 1) None.


(** A syncing node that takes block 1 at once and block 2 when its
    verification is over, and a mining node that stores its own block 1 and
    then block 2 from the network. *)
Definition sync_two_blocks : list Event :=
  [EvOpen "ws://b"; EvSyncTimer; EvMessage (SEND_BLOCK Scenario.block1);
   EvMessage (SEND_BLOCK block2); EvResume 2].

Definition mine_then_gossip : list Event :=
  [EvTick 5; EvMined Scenario.block1; EvMessage (NEW_BLOCK block2)].

(** The node [syncing2] after its first block, awaiting height 2, and a
    block for that height that pays 10 to ["bob"]. *)
Definition awaiting2 : Node :=
  state_of (on_SEND_BLOCK (H := Scenario.core) (Scenario.options false true)
              Scenario.block1 syncing2).

Definition paying2 : Block.t :=
  {| Block.blockNumber := 2; Block.timestamp := 8;
     Block.transactions := [Scenario.pay "alice" "bob" 10 None 1];
     Block.difficulty := 1; Block.parentHash := "h1"; Block.hash := "p2";
     Block.nonce := 5 |}.

(** The node [syncing2] after a response for block 2 was parked on its
    verification and the same block, sent as a new block, was accepted and
    cleared the sync flag. *)
Definition cleared_with_parked : Node :=
  run (H := Scenario.core) (Scenario.options false true) syncing2
    [EvMessage (SEND_BLOCK Scenario.block1); EvMessage (SEND_BLOCK block2);
     EvMessage (NEW_BLOCK block2)].

(** Further inputs on the concrete chain: a store with two blocks and a
    node that runs on it. *)

Definition two_blocks : gmap string Block.t :=
  <[ "1" := Scenario.block1 ]> Scenario.genesis_only.

Definition on_two_blocks : Node :=
  set_blockDB two_blocks (Scenario.synced []).

Definition fork1 : Block.t :=
  {| Block.blockNumber := 1; Block.timestamp := 6; Block.transactions := [];
     Block.difficulty := 1; Block.parentHash := "g"; Block.hash := "f1";
     Block.nonce := 4 |}.

(** * Properties *)

(** ** [parseInt] reads back what [toString] prints *)

Module JSFacts.

Ltac fold_digit :=
  match goal with
  | |- parse_digits _ _ (Some ?x) = Some (Z.pos (Pos.of_uint_acc _ ?p)) =>
      replace x with (Z.pos p)
        by (match goal with
            | |- context [Z.of_nat (nat_of_ascii ?c)] =>
                let v := eval vm_compute in (Z.of_nat (nat_of_ascii c)) in
                change (Z.of_nat (nat_of_ascii c)) with v
            end; lia)
  end.

Lemma digits_acc (d : Decimal.uint) (a : positive) :
  parse_digits 10 (NilEmpty.string_of_uint d) (Some (Z.pos a))
  = Some (Z.pos (Pos.of_uint_acc d a)).
Proof.
  revert a.
  induction d as [|d IHd|d IHd|d IHd|d IHd|d IHd|d IHd|d IHd|d IHd|d IHd|d IHd];
    intros a; simpl; try reflexivity; fold_digit; apply IHd.
Qed.

Lemma digits_zero (d : Decimal.uint) :
  parse_digits 10 (NilEmpty.string_of_uint d) (Some 0)
  = Some (Z.of_N (Pos.of_uint d)).
Proof.
  induction d; simpl; try reflexivity;
    first [ exact IHd | fold_digit; apply digits_acc ].
Qed.

Lemma digits_fresh (d : Decimal.uint) :
  d <> Decimal.Nil ->
  parse_digits 10 (NilEmpty.string_of_uint d) None
  = Some (Z.of_N (Pos.of_uint d)).
Proof.
  destruct d; intros Hd; try congruence; simpl;
    first [ apply digits_zero | fold_digit; apply digits_acc ].
Qed.

Lemma uint_head (d : Decimal.uint) :
  d <> Decimal.Nil ->
  let s := NilEmpty.string_of_uint d in
  trim_start s = s /\ strip_sign s = (1, s) /\ strip_radix s = (10, s).
Proof.
  destruct d; intros Hd; try congruence; simpl; repeat split;
    destruct d; reflexivity.
Qed.

Lemma parseInt_uint (d : Decimal.uint) :
  d <> Decimal.Nil ->
  parseInt (NilEmpty.string_of_uint d) = Num (Z.of_N (Pos.of_uint d)).
Proof.
  intros Hd. destruct (uint_head d Hd) as (Ht & Hs & Hr).
  unfold parseInt. rewrite Ht, Hs, Hr, (digits_fresh d Hd).
  f_equal; lia.
Qed.

Lemma parseInt_neg_uint (d : Decimal.uint) :
  d <> Decimal.Nil ->
  parseInt (String "-" (NilEmpty.string_of_uint d))
  = Num (- Z.of_N (Pos.of_uint d)).
Proof.
  intros Hd. destruct (uint_head d Hd) as (_ & _ & Hr).
  unfold parseInt.
  change (trim_start (String "-" (NilEmpty.string_of_uint d)))
    with (String "-" (NilEmpty.string_of_uint d)).
  change (strip_sign (String "-" (NilEmpty.string_of_uint d)))
    with (-1, NilEmpty.string_of_uint d).
  cbv beta iota. rewrite Hr, (digits_fresh d Hd).
  f_equal; lia.
Qed.

Lemma nilzero_uint (d : Decimal.uint) :
  d <> Decimal.Nil ->
  NilZero.string_of_uint d = NilEmpty.string_of_uint d.
Proof. destruct d; intros Hd; try congruence; reflexivity. Qed.

(** A block number printed as a key is read back unchanged. *)
Lemma parseInt_toString (n : Z) : parseInt (toString n) = Num n.
Proof.
  destruct n as [|p|p]; [reflexivity| |]; unfold toString; simpl Z.to_int;
    pose proof (Unsigned.to_uint_nonnil p) as Hp.
  - simpl NilZero.string_of_int. rewrite (nilzero_uint _ Hp).
    rewrite (parseInt_uint _ Hp), Unsigned.of_to. reflexivity.
  - simpl NilZero.string_of_int. rewrite (nilzero_uint _ Hp).
    rewrite (parseInt_neg_uint _ Hp), Unsigned.of_to. reflexivity.
Qed.

Lemma toString_inj (n m : Z) : toString n = toString m -> n = m.
Proof.
  intros E. apply (f_equal parseInt) in E.
  rewrite !parseInt_toString in E. congruence.
Qed.

(** [Math.max] over the parsed keys of a store whose keys are all printed
    block numbers: the largest of them. *)
Lemma Math_max_keys (ks : list string) :
  ks <> [] ->
  (forall k, In k ks -> exists n, k = toString n) ->
  exists m,
    Math_max (map parseInt ks) = Num m
    /\ In (toString m) ks
    /\ (forall n, In (toString n) ks -> n <= m).
Proof.
  induction ks as [|k ks IH]; intros Hne Hall; [congruence|].
  destruct (Hall k (or_introl eq_refl)) as [n0 ->].
  destruct ks as [|k' ks'].
  - exists n0. simpl. rewrite parseInt_toString. simpl.
    repeat split; [now left|].
    intros n [E|[]]. apply toString_inj in E. lia.
  - destruct IH as (m & Hm & Hin & Hmax); [congruence| |].
    { intros k Hk. apply Hall. now right. }
    exists (Z.max n0 m).
    change (Math_max (map parseInt (toString n0 :: k' :: ks')))
      with (max2 (parseInt (toString n0))
              (Math_max (map parseInt (k' :: ks')))).
    rewrite Hm, parseInt_toString. simpl max2. repeat split.
    + destruct (Z.max_spec n0 m) as [[_ ->]|[_ ->]]; [now right | now left].
    + intros n [E|Hn].
      * apply toString_inj in E. lia.
      * specialize (Hmax n Hn). lia.
Qed.

End JSFacts.

(** ** Facts about the stores *)

Lemma keys_dom {V : Type} (db : gmap string V) (k : string) :
  In k (keys db) <-> k ∈ dom db.
Proof.
  unfold keys. rewrite <- list_elem_of_In, list_elem_of_fmap, elem_of_dom.
  split.
  - intros ([k' v] & -> & Hin). apply elem_of_map_to_list in Hin. eauto.
  - intros [v Hv]. exists (k, v). split; [reflexivity|].
    now apply elem_of_map_to_list.
Qed.

Lemma keys_nil {V : Type} (db : gmap string V) : keys db = [] <-> db = ∅.
Proof.
  unfold keys. rewrite <- map_to_list_empty_iff. split.
  - apply fmap_nil_inv.
  - intros ->. reflexivity.
Qed.

Lemma includes_keys {V : Type} (db : gmap string V) (k : string) :
  includes k (keys db) = true <-> is_Some (db !! k).
Proof.
  unfold includes. rewrite existsb_exists, <- elem_of_dom, <- keys_dom.
  split.
  - intros (x & Hin & E). apply String.eqb_eq in E. now subst.
  - intros Hin. exists k. split; [assumption | apply String.eqb_refl].
Qed.

Lemma list_sum_Z_app (l1 l2 : list Z) :
  list_sum_Z (l1 ++ l2) = list_sum_Z l1 + list_sum_Z l2.
Proof. induction l1 as [|x l1 IH]; simpl; [reflexivity | rewrite IH; lia]. Qed.

(** ** Sync start height *)

(** C6 (amended): at startup in sync mode the sync height is 1 when the block
    store is empty; otherwise it is the largest block number among the keys
    of the store, without any lower bound of 1. *)
Theorem sync_start_is_max_key (db : gmap string Block.t) :
  (forall k, k ∈ dom db -> exists n, k = toString n) ->
  (db = ∅ /\ sync_start db = Num 1)
  \/ (db <> ∅
      /\ exists m,
           sync_start db = Num m
           /\ toString m ∈ dom db
           /\ (forall n, toString n ∈ dom db -> n <= m)).
Proof.
  intros Hkeys. unfold sync_start.
  destruct (keys db) as [|k ks] eqn:Ek.
  - left. split; [now apply keys_nil | reflexivity].
  - right. split.
    { intros E. apply keys_nil in E. congruence. }
    destruct (JSFacts.Math_max_keys (k :: ks)) as (m & Hm & Hin & Hmax);
      [congruence | |].
    { intros k' Hk'. apply Hkeys. apply keys_dom. now rewrite Ek. }
    exists m. simpl negb. cbv iota. split; [exact Hm|]. split.
    + apply keys_dom. now rewrite Ek.
    + intros n Hn. apply Hmax. rewrite <- Ek. now apply keys_dom.
Qed.

Lemma sync_start_is_max_key_witness :
  Scenario.genesis_only <> ∅
  /\ exists m,
       sync_start Scenario.genesis_only = Num m
       /\ toString m ∈ dom Scenario.genesis_only
       /\ (forall n, toString n ∈ dom Scenario.genesis_only -> n <= m).
Proof.
  destruct (sync_start_is_max_key Scenario.genesis_only) as [[E _]|R].
  - intros k Hk. unfold Scenario.genesis_only in Hk.
    rewrite dom_singleton_L in Hk.
    apply elem_of_singleton in Hk. exists 0. rewrite Hk. reflexivity.
  - exfalso. apply (f_equal (fun m => m !! "0")) in E.
    unfold Scenario.genesis_only in E.
    rewrite lookup_singleton_eq, lookup_empty in E. discriminate.
  - exact R.
Defined.

(** C6, as stated, fails: a store holding only the genesis block under key
    ["0"] starts the sync at height 0, not 1. *)
Lemma sync_start_genesis_only :
  keys Scenario.genesis_only = ["0"]
  /\ sync_start Scenario.genesis_only = Num 0
  /\ sync_start Scenario.genesis_only <> Num 1.
Proof.
  split; [reflexivity|].
  split; [vm_compute; reflexivity | vm_compute; discriminate].
Qed.

(** ** The mining coordinator *)

Section Mining.

Context `{Core}.

Lemma sum_contractGas_app (l1 l2 : list Transaction.t) :
  sum_contractGas (l1 ++ l2) = sum_contractGas l1 + sum_contractGas l2.
Proof. unfold sum_contractGas. now rewrite map_app, list_sum_Z_app. Qed.

Lemma sum_contractGas_cons (tx : Transaction.t) (l : list Transaction.t) :
  sum_contractGas (tx :: l)
  = contractGas_or0 (Transaction.additionalData tx) + sum_contractGas l.
Proof. reflexivity. Qed.

Lemma sum_gas_app (l1 l2 : list Transaction.t) :
  sum_gas (l1 ++ l2) = sum_gas l1 + sum_gas l2.
Proof. unfold sum_gas. now rewrite map_app, list_sum_Z_app. Qed.

(** What the selection loop computes from any values of its locals. *)
Lemma collect_spec (pool acc : list Transaction.t) (g t : Z) :
  exists sel rest,
    pool = sel ++ rest
    /\ collect pool acc g t
       = (acc ++ sel, g + sum_contractGas sel,
          t + (sum_gas sel + sum_contractGas sel))
    /\ (forall pre tx,
          (pre ++ [tx]) `prefix_of` sel ->
          g + sum_contractGas (pre ++ [tx]) < BLOCK_GAS_LIMIT)
    /\ match rest with
       | [] => True
       | tx :: _ =>
           BLOCK_GAS_LIMIT
           <= g + sum_contractGas sel
              + contractGas_or0 (Transaction.additionalData tx)
       end.
Proof.
  revert acc g t. induction pool as [|tx pool IH]; intros acc g t.
  - exists [], []. simpl. rewrite app_nil_r. repeat split.
    + f_equal; [f_equal|]; unfold sum_contractGas, sum_gas; simpl; lia.
    + intros pre x [k Hk]. destruct pre; discriminate.
  - simpl.
    destruct (g + contractGas_or0 (Transaction.additionalData tx)
              >=? BLOCK_GAS_LIMIT) eqn:Hbreak.
    + exists [], (tx :: pool). rewrite app_nil_r. repeat split.
      * f_equal; [f_equal|]; unfold sum_contractGas, sum_gas; simpl; lia.
      * intros pre x [k Hk]. destruct pre; discriminate.
      * apply Z.geb_le in Hbreak. unfold sum_contractGas. simpl. lia.
    + destruct (IH (acc ++ [tx])
                  (g + contractGas_or0 (Transaction.additionalData tx))
                  (t + (Transaction.gas tx
                        + contractGas_or0 (Transaction.additionalData tx))))
        as (sel & rest & Hpool & Hcol & Hlt & Hstop).
      exists (tx :: sel), rest. split; [now rewrite Hpool|]. split; [|split].
      * rewrite Hcol, <- app_assoc. simpl.
        f_equal; [f_equal|]; unfold sum_contractGas, sum_gas; simpl; lia.
      * intros pre x [k Hk]. destruct pre as [|y pre]; simpl in Hk.
        -- injection Hk as Hx _. subst x.
           assert (~ (BLOCK_GAS_LIMIT
                      <= g + contractGas_or0 (Transaction.additionalData tx)))
             by (rewrite <- Z.geb_le; congruence).
           unfold sum_contractGas. simpl. lia.
        -- injection Hk as Hy Hk. subst y.
           specialize (Hlt pre x (ex_intro _ k Hk)).
           simpl app. rewrite sum_contractGas_cons. lia.
      * destruct rest; [exact I|].
        rewrite sum_contractGas_cons. lia.
Qed.

(** C3 (amended): the selected transactions are a prefix of the pool, every
    selected transaction keeps the running contract gas strictly below
    [BLOCK_GAS_LIMIT], and selection stops at the first transaction that
    would reach or exceed the limit. *)
Theorem transactionsToMine_prefix_below_limit (pool : list Transaction.t) :
  exists rest,
    pool = transactionsToMine pool ++ rest
    /\ (forall pre tx,
          (pre ++ [tx]) `prefix_of` transactionsToMine pool ->
          sum_contractGas (pre ++ [tx]) < BLOCK_GAS_LIMIT)
    /\ match rest with
       | [] => True
       | tx :: _ =>
           BLOCK_GAS_LIMIT
           <= sum_contractGas (transactionsToMine pool)
              + contractGas_or0 (Transaction.additionalData tx)
       end.
Proof.
  unfold transactionsToMine.
  destruct (collect_spec pool [] 0 0) as (sel & rest & Hpool & Hcol & Hlt & Hs).
  rewrite Hcol. simpl. exists rest. split; [exact Hpool|]. split.
  - intros pre tx Hp. specialize (Hlt pre tx Hp). lia.
  - destruct rest; [exact I | lia].
Qed.

Lemma totalTxGas_sum (pool : list Transaction.t) :
  totalTxGas pool
  = sum_gas (transactionsToMine pool)
    + sum_contractGas (transactionsToMine pool).
Proof.
  unfold totalTxGas, transactionsToMine.
  destruct (collect_spec pool [] 0 0) as (sel & rest & _ & Hcol & _).
  rewrite Hcol. simpl. lia.
Qed.

(** C4: the block that [mine] hands to the worker starts with a coinbase that
    pays the hash of the miner's public key, carries the block reward plus
    the gas and the contract gas of every selected transaction, and is signed
    with the MINT key pair; the selected transactions follow it. *)
Theorem mine_coinbase (cfg : Options) (now : Z) (s : Node) :
  let pool := ChainInfo.transactionPool (chainInfo s) in
  exists block coinbase,
    trace (mine cfg now s)
    = trace s ++ [WorkerMine block (ChainInfo.difficulty (chainInfo s))]
    /\ Block.transactions block = coinbase :: transactionsToMine pool
    /\ Block.transactions block !! 0%nat = Some coinbase
    /\ Transaction.recipient coinbase = SHA256 (publicKey cfg)
    /\ Transaction.amount coinbase
       = BLOCK_REWARD + sum_gas (transactionsToMine pool)
         + sum_contractGas (transactionsToMine pool)
    /\ Transaction.signature coinbase
       = ec_sign MINT_KEY_PAIR (unsigned_reward (publicKey cfg) now pool).
Proof.
  intros pool.
  exists (candidate (publicKey cfg) now (chainInfo s)),
         (rewardTransaction (publicKey cfg) now pool).
  repeat split.
  simpl. rewrite totalTxGas_sum. lia.
Qed.

End Mining.

(** C3, as stated, fails: a pooled transaction whose contract gas is exactly
    [BLOCK_GAS_LIMIT] is not selected. *)
Lemma transactionsToMine_at_limit_not_selected :
  let tx := Scenario.pay "alice" "bob" 1 (Some 50000000) 1 in
  sum_contractGas [tx] = BLOCK_GAS_LIMIT (Core := Scenario.core)
  /\ transactionsToMine (H := Scenario.core) [tx] = [].
Proof. split; reflexivity. Qed.

(** ** The message handlers *)

Section Handlers.

Context `{Core}.

(** C2: a [NEW_BLOCK] whose parent hash equals the parent hash of the current
    head leaves the node exactly as it was: stores, chain info, worker and
    trace (so nothing is sent and the worker is not respawned). *)
Theorem on_NEW_BLOCK_same_parent (cfg : Options) (newBlock : Block.t)
    (s : Node) :
  Block.parentHash newBlock
  = Block.parentHash (ChainInfo.latestBlock (chainInfo s)) ->
  on_NEW_BLOCK cfg newBlock s = Done s.
Proof.
  intros E. unfold on_NEW_BLOCK. rewrite E, String.eqb_refl. reflexivity.
Qed.

(** C9: on a synced node, a [REQUEST_BLOCK] whose [requestAddress] is not the
    address of an open peer throws at the socket lookup, whatever the block
    number is, and the node state (hence the trace of sends) is untouched. *)
Theorem on_REQUEST_BLOCK_unknown_peer (blockNumber : jsnum)
    (requestAddress : string) (s : Node) :
  ENABLE_CHAIN_REQUEST s = false ->
  (forall node, In node (opened s) -> Peer.address node <> requestAddress) ->
  on_REQUEST_BLOCK blockNumber requestAddress s = Threw TypeError s.
Proof.
  intros Hsync Hnone. unfold on_REQUEST_BLOCK. rewrite Hsync. simpl.
  destruct (List.find _ (opened s)) as [node|] eqn:Hfind; [|reflexivity].
  apply find_some in Hfind. destruct Hfind as [Hin Heq].
  apply String.eqb_eq in Heq. destruct (Hnone node Hin Heq).
Qed.

(** C7: for a transaction object the RPC route first replies success, then
    sends the transaction to every open peer, and only then calls
    [addTransaction]; whatever [addTransaction] and [isValid] are, the reply
    is the success reply and no other reply follows. *)
Theorem handleSendTransaction_replies_first (tx : Transaction.t) (s : Node) :
  exists rest,
    trace (handleSendTransaction (JsObject tx) s)
    = trace s
      ++ [Reply 200 true received]
      ++ sendMessage (CREATE_TRANSACTION tx) (opened s)
      ++ [AddTransaction tx]
      ++ rest
    /\ (rest = [] \/ rest = [LogError]).
Proof.
  unfold handleSendTransaction, sendTransaction.
  destruct (addTransaction tx _ _) as [pool|].
  - exists []. simpl. rewrite <- !app_assoc. split; [reflexivity | now left].
  - exists [LogError]. simpl. rewrite <- !app_assoc.
    split; [reflexivity | now right].
Qed.

Lemma take_block_took (cfg : Options) (block : Block.t) (s : Node) :
  took_block cfg block s (take_block cfg block s).
Proof.
  destruct s as [[pool head lsb diff] sdb bdb op co ecr csb mi wo lo tr su].
  unfold took_block, take_block, request_loop. simpl.
  destruct lsb as [b|]; simpl; destruct op as [|node op]; simpl;
    repeat split.
Qed.


End Handlers.

(** ** The transaction pool *)

Section Pool.

Context `{Core}.

(** What the transaction handler does on a synced node. *)
Lemma on_CREATE_TRANSACTION_admits (tx : Transaction.t) (s : Node) :
  ENABLE_CHAIN_REQUEST s = false ->
  on_CREATE_TRANSACTION tx s
  = Done (if admits tx s then admitted tx s else s).
Proof.
  intros Hsync. unfold on_CREATE_TRANSACTION, admits, admitted, pool_of.
  rewrite Hsync. simpl. fold (senderAddress tx).
  destruct (isValid tx (stateDB s)); simpl; [|reflexivity].
  destruct (includes (senderAddress tx) (keys (stateDB s))) eqn:Hinc; simpl.
  - apply includes_keys in Hinc. destruct Hinc as [acc Hacc]. rewrite Hacc.
    destruct (0 <=? _); simpl; [|reflexivity].
    destruct (timestamp_used _ _ _); reflexivity.
  - destruct (stateDB s !! senderAddress tx) eqn:Hacc; [|reflexivity].
    assert (includes (senderAddress tx) (keys (stateDB s)) = true)
      by (apply includes_keys; eauto).
    congruence.
Qed.

Lemma on_CREATE_TRANSACTION_syncing (tx : Transaction.t) (s : Node) :
  ENABLE_CHAIN_REQUEST s = true -> on_CREATE_TRANSACTION tx s = Done s.
Proof. intros Hsync. unfold on_CREATE_TRANSACTION. now rewrite Hsync. Qed.

(** The debit loop subtracts, for every pooled transaction of the sender,
    that transaction's amount and gas and the incoming contract gas. *)
Lemma pool_debit_sum (tx : Transaction.t) (a : string)
    (pool : list Transaction.t) (b : Z) :
  pool_debit tx a pool b
  = b - list_sum_Z
          (map (fun tx' =>
                  Transaction.amount tx' + Transaction.gas tx'
                  + contractGas_or0 (Transaction.additionalData tx))
             (List.filter (fun tx' => String.eqb (senderAddress tx') a) pool)).
Proof.
  unfold pool_debit. revert b.
  induction pool as [|tx' pool IH]; intros b; simpl; [lia|].
  rewrite IH. destruct (String.eqb (senderAddress tx') a); simpl; lia.
Qed.

(** When the pooled transactions of the sender all carry the contract gas of
    the incoming one, the loop computes the documented projected balance. *)
Lemma pool_debit_projected (tx : Transaction.t) (pool : list Transaction.t)
    (b : Z) :
  (forall tx', In tx' pool ->
     senderAddress tx' = senderAddress tx ->
     contractGas_or0 (Transaction.additionalData tx')
     = contractGas_or0 (Transaction.additionalData tx)) ->
  pool_debit tx (senderAddress tx) pool
    (b - Transaction.amount tx - Transaction.gas tx
     - contractGas_or0 (Transaction.additionalData tx))
  = projected_balance tx pool b.
Proof.
  intros Hsame. rewrite pool_debit_sum. unfold projected_balance, cost.
  assert (E : forall l,
             (forall tx', In tx' l -> In tx' pool) ->
             list_sum_Z
               (map (fun tx' =>
                       Transaction.amount tx' + Transaction.gas tx'
                       + contractGas_or0 (Transaction.additionalData tx))
                  (List.filter
                     (fun tx' =>
                        String.eqb (senderAddress tx') (senderAddress tx)) l))
             = list_sum_Z
                 (map (fun tx' =>
                         Transaction.amount tx' + Transaction.gas tx'
                         + contractGas_or0 (Transaction.additionalData tx'))
                    (List.filter
                       (fun tx' =>
                          String.eqb (senderAddress tx') (senderAddress tx))
                       l))).
  { induction l as [|x l IH]; intros Hl; simpl; [reflexivity|].
    destruct (String.eqb (senderAddress x) (senderAddress tx)) eqn:Ex; simpl.
    - apply String.eqb_eq in Ex.
      rewrite (Hsame x (Hl x (or_introl eq_refl)) Ex), IH; [reflexivity|].
      intros y Hy. apply Hl. now right.
    - apply IH. intros y Hy. apply Hl. now right. }
  rewrite (E pool (fun _ h => h)). lia.
Qed.

Lemma timestamp_used_false (tx : Transaction.t) (a : string)
    (pool : list Transaction.t) :
  timestamp_used tx a pool = false ->
  forall tx', In tx' pool ->
    senderAddress tx' = a ->
    Transaction.timestamp tx' <> Transaction.timestamp tx.
Proof.
  unfold timestamp_used. intros Hno tx' Hin Hs E.
  assert (existsb
            (fun _tx => Transaction.timestamp _tx =? Transaction.timestamp tx)
            (List.filter (fun _tx => String.eqb (senderAddress _tx) a) pool)
          = true); [|congruence].
  apply existsb_exists. exists tx'. split.
  - apply filter_In. split; [exact Hin|]. now apply String.eqb_eq.
  - now apply Z.eqb_eq.
Qed.

Lemma timestamp_used_iff (tx : Transaction.t) (a : string)
    (pool : list Transaction.t) :
  timestamp_used tx a pool = false
  <-> (forall tx', In tx' pool ->
         senderAddress tx' = a ->
         Transaction.timestamp tx' <> Transaction.timestamp tx).
Proof.
  split; [apply timestamp_used_false|].
  intros Hno. unfold timestamp_used.
  destruct (existsb _ _) eqn:Hex; [|reflexivity].
  apply existsb_exists in Hex. destruct Hex as (tx' & Hin & Hts).
  apply filter_In in Hin. destruct Hin as [Hin Hs].
  apply String.eqb_eq in Hs. apply Z.eqb_eq in Hts.
  destruct (Hno tx' Hin Hs Hts).
Qed.

(** Where the slip of the debit loop cannot show (the sender's pooled
    transactions carry the contract gas of the incoming one), the handler
    admits exactly under the documented rule. *)
Lemma admits_documented_rule (tx : Transaction.t) (s : Node) :
  (forall tx', In tx' (pool_of s) ->
     senderAddress tx' = senderAddress tx ->
     contractGas_or0 (Transaction.additionalData tx')
     = contractGas_or0 (Transaction.additionalData tx)) ->
  admits tx s = true
  <-> isValid tx (stateDB s) = true
      /\ (exists acc,
            stateDB s !! senderAddress tx = Some acc
            /\ 0 <= projected_balance tx (pool_of s) (balance acc))
      /\ (forall tx', In tx' (pool_of s) ->
            senderAddress tx' = senderAddress tx ->
            Transaction.timestamp tx' <> Transaction.timestamp tx).
Proof.
  intros Hsame. unfold admits.
  rewrite !andb_true_iff, negb_true_iff, timestamp_used_iff.
  destruct (stateDB s !! senderAddress tx) as [acc|].
  - rewrite (pool_debit_projected tx (pool_of s) (balance acc) Hsame).
    rewrite Z.leb_le. split.
    + intros [[Hv Hb] Hts]. repeat split; eauto.
    + intros (Hv & (acc' & E & Hb) & Hts). injection E as <-. auto.
  - split.
    + intros [[_ Hb] _]. discriminate.
    + intros (_ & (acc' & E & _) & _). discriminate.
Qed.

End Pool.

(** C1: on this input the handler drops a transaction that the documented
    rule admits.  The sender holds 5000000000000; the pool holds one
    transaction of the sender costing 10 + 1000000000000 with no contract
    gas; the incoming transaction costs 10 + 1000000000000 + 2000000000000.
    The documented projected balance is 999999999980, but the loop charges
    the incoming contract gas to the pooled transaction as well and reaches
    -1000000000020. *)
Theorem create_transaction_contractGas_slip :
  let pooled := Scenario.pay "alice" "bob" 10 None 1 in
  let tx := Scenario.pay "alice" "bob" 10 (Some 2000000000000) 2 in
  let s := Scenario.synced [pooled] in
  ENABLE_CHAIN_REQUEST s = false
  /\ isValid (Core := Scenario.core) tx (stateDB s) = true
  /\ projected_balance (H := Scenario.core) tx (pool_of s) Scenario.funds
     = 999999999980
  /\ timestamp_used (H := Scenario.core) tx
       (senderAddress (H := Scenario.core) tx) (pool_of s) = false
  /\ pool_debit (H := Scenario.core) tx
       (senderAddress (H := Scenario.core) tx) (pool_of s)
       (Scenario.funds - 10 - Scenario.MIN_TX_FEE - 2000000000000)
     = -1000000000020
  /\ on_CREATE_TRANSACTION (H := Scenario.core) tx s = Done s.
Proof. repeat split; vm_compute; reflexivity. Qed.

(** The same slip in the other direction: the pooled transaction carries
    contract gas 3000000000000 and the incoming one none; the documented
    projected balance is -20, yet the loop reaches 2999999999980 and the
    transaction is pooled and sent on. *)
Example create_transaction_overdraft_admitted :
  let pooled := Scenario.pay "alice" "bob" 10 (Some 3000000000000) 1 in
  let tx := Scenario.pay "alice" "bob" 10 None 2 in
  let s := Scenario.synced [pooled] in
  projected_balance (H := Scenario.core) tx (pool_of s) Scenario.funds = -20
  /\ pool_of (state_of (on_CREATE_TRANSACTION (H := Scenario.core) tx s))
     = [pooled; tx]
  /\ trace (state_of (on_CREATE_TRANSACTION (H := Scenario.core) tx s))
     = [Send "ws://b" (CREATE_TRANSACTION tx)].
Proof. repeat split; vm_compute; reflexivity. Qed.

(** ** Invariants of the event loop *)

Section Invariants.

Context `{Core}.

Lemma dispatched_app (t1 t2 : list Effect) :
  dispatched (t1 ++ t2) = dispatched t1 ++ dispatched t2.
Proof. apply omap_app. Qed.

Lemma dispatched_sends {A : Type} (f : A -> Effect) (l : list A) :
  (forall x, match f x with WorkerMine _ _ => False | _ => True end) ->
  dispatched (map f l) = [].
Proof.
  intros Hf. induction l as [|x l IH]; [reflexivity|].
  simpl. specialize (Hf x). destruct (f x); try exact IH. destruct Hf.
Qed.

Lemma quiet_refl (s : Node) : quiet s s.
Proof. split; reflexivity. Qed.

Lemma quiet_trans (s1 s2 s3 : Node) : quiet s1 s2 -> quiet s2 s3 -> quiet s1 s3.
Proof. intros [A B] [C D]. split; congruence. Qed.

Ltac quiet_simpl :=
  unfold quiet, sendMessage; simpl;
  rewrite ?dispatched_app; simpl;
  repeat rewrite dispatched_sends by (intro; exact I);
  rewrite ?app_nil_r; auto.

Lemma on_NEW_BLOCK_quiet (cfg : Options) (b : Block.t) (s : Node) :
  quiet s (state_of (on_NEW_BLOCK cfg b s)).
Proof.
  unfold on_NEW_BLOCK.
  repeat (case_match; simpl; try apply quiet_refl); quiet_simpl.
Qed.

Lemma on_CREATE_TRANSACTION_quiet (tx : Transaction.t) (s : Node) :
  quiet s (state_of (on_CREATE_TRANSACTION tx s)).
Proof.
  unfold on_CREATE_TRANSACTION.
  repeat (case_match; simpl; try apply quiet_refl); quiet_simpl.
Qed.

Lemma on_REQUEST_BLOCK_quiet (n : jsnum) (a : string) (s : Node) :
  quiet s (state_of (on_REQUEST_BLOCK n a s)).
Proof.
  unfold on_REQUEST_BLOCK.
  repeat (case_match; simpl; try apply quiet_refl); quiet_simpl.
Qed.

Lemma request_loop_quiet (cfg : Options) (index : nat) (s : Node) :
  quiet s (request_loop cfg index s).
Proof. unfold request_loop. case_match; quiet_simpl. Qed.

Lemma take_block_quiet (cfg : Options) (b : Block.t) (s : Node) :
  quiet s (take_block cfg b s).
Proof.
  unfold take_block. cbv zeta.
  eapply quiet_trans; [|apply request_loop_quiet].
  unfold quiet. simpl. case_match; split; reflexivity.
Qed.

Lemma on_SEND_BLOCK_quiet (cfg : Options) (b : Block.t) (s : Node) :
  quiet s (state_of (on_SEND_BLOCK cfg b s)).
Proof.
  unfold on_SEND_BLOCK.
  repeat (case_match; simpl; try apply quiet_refl);
    [quiet_simpl | apply take_block_quiet].
Qed.

Lemma on_resume_quiet (cfg : Options) (k : nat) (s : Node) :
  quiet s (on_resume cfg k s).
Proof.
  unfold on_resume.
  repeat (case_match; simpl; try apply quiet_refl).
  - eapply quiet_trans; [|apply take_block_quiet]. quiet_simpl.
  - quiet_simpl.
  - eapply quiet_trans; [|apply request_loop_quiet]. quiet_simpl.
Qed.

Lemma connect_quiet (me a : string) (s : Node) : quiet s (connect me a s).
Proof. unfold connect. case_match; [quiet_simpl | apply quiet_refl]. Qed.

Lemma on_message_quiet (cfg : Options) (m : Message) (s : Node) :
  quiet s (state_of (on_message cfg m s)).
Proof.
  destruct m; simpl;
    auto using on_NEW_BLOCK_quiet, on_CREATE_TRANSACTION_quiet,
      on_REQUEST_BLOCK_quiet, on_SEND_BLOCK_quiet, connect_quiet, quiet_refl.
Qed.

Lemma on_open_quiet (me a : string) (s : Node) : quiet s (on_open me a s).
Proof. unfold on_open. repeat case_match; quiet_simpl. Qed.

Lemma on_close_quiet (a : string) (s : Node) : quiet s (on_close a s).
Proof. unfold on_close. quiet_simpl. Qed.

Lemma on_sync_timer_quiet (cfg : Options) (s : Node) :
  quiet s (on_sync_timer cfg s).
Proof.
  unfold on_sync_timer.
  case_match; [apply request_loop_quiet | apply quiet_refl].
Qed.

Lemma on_mined_quiet (cfg : Options) (b : Block.t) (s : Node) :
  quiet s (on_mined cfg b s).
Proof. unfold on_mined. case_match; quiet_simpl. Qed.

Lemma handleSendTransaction_quiet (v : JsValue) (s : Node) :
  quiet s (handleSendTransaction v s).
Proof.
  unfold handleSendTransaction, sendTransaction.
  repeat (case_match; simpl); simplify_eq; quiet_simpl.
Qed.

Lemma quiet_blocked (s s' : Node) :
  quiet s s' -> loop_blocked s -> loop_blocked s'.
Proof.
  intros [Hl Ht] [Hlm Hd]. split; [now rewrite Hl | now rewrite Ht].
Qed.

Lemma on_tick_blocked (cfg : Options) (now : Z) (s : Node) :
  loop_blocked s -> loop_blocked (on_tick cfg now s).
Proof.
  intros [(lm & Hl & Hflag) Hd]. unfold on_tick. rewrite Hl, Hflag. simpl.
  case_match; [|split; eauto].
  split; [|exact Hd]. simpl. eexists. split; reflexivity.
Qed.

Lemma step_blocked (cfg : Options) (s : Node) (e : Event) :
  loop_blocked s -> loop_blocked (step cfg s e).
Proof.
  destruct e; simpl;
    eauto using quiet_blocked, on_message_quiet, on_open_quiet,
      on_close_quiet, on_sync_timer_quiet, on_mined_quiet,
      handleSendTransaction_quiet, on_tick_blocked, on_resume_quiet.
Qed.

Lemma run_blocked (cfg : Options) (events : list Event) (s : Node) :
  loop_blocked s -> loop_blocked (run cfg s events).
Proof.
  revert s. induction events as [|e events IH]; intros s Hs; [exact Hs|].
  apply IH, step_blocked, Hs.
Qed.

Lemma connect_all_quiet (me : string) (peers : list string) (s : Node) :
  quiet s (foldl (fun s peer => connect me peer s) s peers).
Proof.
  revert s. induction peers as [|p peers IH]; intros s; [apply quiet_refl|].
  simpl. eapply quiet_trans; [apply connect_quiet | apply IH].
Qed.

Lemma startServer_blocked (opts : Options) (sdb : gmap string Account)
    (bdb : gmap string Block.t) :
  opt_ENABLE_CHAIN_REQUEST opts = true ->
  ENABLE_MINING opts = true ->
  exists s0, startServer opts sdb bdb = Done s0 /\ loop_blocked s0
             /\ ENABLE_CHAIN_REQUEST s0 = true.
Proof.
  intros Hsync Hmine. unfold startServer, load_chain, boot.
  rewrite Hmine. simpl. rewrite Hsync. simpl.
  set (s1 := {| chainInfo := _ |}).
  pose proof (connect_all_quiet (MY_ADDRESS opts) (PEERS opts) s1) as [Hl Ht].
  assert (He : forall peers s,
             ENABLE_CHAIN_REQUEST
               (foldl (fun s peer => connect (MY_ADDRESS opts) peer s) s peers)
             = ENABLE_CHAIN_REQUEST s).
  { induction peers as [|p peers IH]; intros s; [reflexivity|].
    simpl. rewrite IH. unfold connect. case_match; reflexivity. }
  rewrite He. simpl. eexists. split; [reflexivity|].
  unfold loop_blocked. simpl. rewrite !He, Ht. simpl.
  repeat split. eexists. split; reflexivity.
Qed.

(** C8: a node started with both chain sync and mining enabled never sends a
    candidate block to the worker, whatever events follow, including the
    block message that clears the node's sync flag: the mining loop tests the
    value the flag had when [loopMine] was called. *)
Theorem loopMine_never_dispatches (opts : Options)
    (sdb : gmap string Account) (bdb : gmap string Block.t)
    (events : list Event) :
  opt_ENABLE_CHAIN_REQUEST opts = true ->
  ENABLE_MINING opts = true ->
  exists s0,
    startServer opts sdb bdb = Done s0
    /\ dispatched (trace (run opts s0 events)) = [].
Proof.
  intros Hsync Hmine.
  destruct (startServer_blocked opts sdb bdb Hsync Hmine) as (s0 & Hs & Hb & _).
  exists s0. split; [exact Hs|].
  apply (run_blocked opts events s0 Hb).
Qed.

End Invariants.

(** ** The pool never holds two transactions of a sender with one timestamp *)

Section PoolInvariant.

Context `{Core}.

Lemma distinct_filter (f : Transaction.t -> bool) (pool : list Transaction.t) :
  distinct_timestamps pool -> distinct_timestamps (List.filter f pool).
Proof.
  induction pool as [|tx pool IH]; intros Hd; [exact I|].
  destruct Hd as [Hhead Htail]. simpl. destruct (f tx); simpl; auto.
  split; [|auto]. intros tx' Hin. apply filter_In in Hin. apply Hhead, Hin.
Qed.

Lemma distinct_snoc (pool : list Transaction.t) (tx : Transaction.t) :
  distinct_timestamps pool ->
  (forall tx', In tx' pool ->
     senderAddress tx' = senderAddress tx ->
     Transaction.timestamp tx' <> Transaction.timestamp tx) ->
  distinct_timestamps (pool ++ [tx]).
Proof.
  induction pool as [|x pool IH]; intros Hd Hnew; simpl.
  - split; [intros ? []|exact I].
  - destruct Hd as [Hhead Htail]. split.
    + intros tx' Hin Hs. apply in_app_or in Hin. destruct Hin as [Hin|[<-|[]]].
      * now apply Hhead.
      * intros E. apply (Hnew x (or_introl eq_refl)); congruence.
    + apply IH; [exact Htail|]. intros tx' Hin. apply Hnew. now right.
Qed.

Lemma on_CREATE_TRANSACTION_distinct (tx : Transaction.t) (s : Node) :
  distinct_timestamps (pool_of s) ->
  distinct_timestamps (pool_of (state_of (on_CREATE_TRANSACTION tx s))).
Proof.
  intros Hd. destruct (ENABLE_CHAIN_REQUEST s) eqn:Hsync.
  - now rewrite on_CREATE_TRANSACTION_syncing.
  - rewrite on_CREATE_TRANSACTION_admits by exact Hsync.
    destruct (admits tx s) eqn:Ha; [|exact Hd].
    unfold admits in Ha. apply andb_prop in Ha. destruct Ha as [_ Hts].
    apply negb_true_iff in Hts.
    apply distinct_snoc; [exact Hd|].
    now apply timestamp_used_false.
Qed.

Lemma on_NEW_BLOCK_distinct (cfg : Options) (b : Block.t) (s : Node) :
  distinct_timestamps (pool_of s) ->
  distinct_timestamps (pool_of (state_of (on_NEW_BLOCK cfg b s))).
Proof.
  intros Hd. unfold on_NEW_BLOCK, pool_of in *.
  repeat (case_match; simpl; try exact Hd);
    now apply distinct_filter.
Qed.

Lemma on_mined_distinct (cfg : Options) (b : Block.t) (s : Node) :
  distinct_timestamps (pool_of s) ->
  distinct_timestamps (pool_of (on_mined cfg b s)).
Proof.
  intros Hd. unfold on_mined, pool_of in *.
  case_match; simpl; [now apply distinct_filter | exact Hd].
Qed.

Lemma connect_pool (me a : string) (s : Node) :
  pool_of (connect me a s) = pool_of s.
Proof. unfold connect. case_match; reflexivity. Qed.

Lemma request_loop_pool (cfg : Options) (index : nat) (s : Node) :
  pool_of (request_loop cfg index s) = pool_of s.
Proof. unfold request_loop. case_match; reflexivity. Qed.

Lemma take_block_pool (cfg : Options) (b : Block.t) (s : Node) :
  pool_of (take_block cfg b s) = pool_of s.
Proof.
  unfold take_block. cbv zeta. rewrite request_loop_pool.
  unfold pool_of. simpl. case_match; reflexivity.
Qed.

Lemma on_SEND_BLOCK_pool (cfg : Options) (b : Block.t) (s : Node) :
  pool_of (state_of (on_SEND_BLOCK cfg b s)) = pool_of s.
Proof.
  unfold on_SEND_BLOCK.
  repeat (case_match; simpl; try reflexivity). apply take_block_pool.
Qed.

Lemma on_resume_pool (cfg : Options) (k : nat) (s : Node) :
  pool_of (on_resume cfg k s) = pool_of s.
Proof.
  unfold on_resume. repeat (case_match; simpl; try reflexivity).
  - now rewrite take_block_pool.
  - now rewrite request_loop_pool.
Qed.

Lemma on_message_distinct (cfg : Options) (m : Message) (s : Node) :
  distinct_timestamps (pool_of s) ->
  distinct_timestamps (pool_of (state_of (on_message cfg m s))).
Proof.
  intros Hd. destruct m; simpl.
  - now rewrite connect_pool.
  - now apply on_CREATE_TRANSACTION_distinct.
  - now apply on_NEW_BLOCK_distinct.
  - unfold on_REQUEST_BLOCK. repeat (case_match; simpl; try exact Hd).
  - now rewrite on_SEND_BLOCK_pool.
  - exact Hd.
Qed.

Lemma step_distinct (cfg : Options) (s : Node) (e : Event) :
  gossip_path e = true ->
  distinct_timestamps (pool_of s) ->
  distinct_timestamps (pool_of (step cfg s e)).
Proof.
  intros He Hd. destruct e; simpl; try discriminate.
  - now apply on_message_distinct.
  - unfold on_open. repeat (case_match; simpl; try exact Hd).
  - exact Hd.
  - unfold on_sync_timer. case_match; [|exact Hd].
    now rewrite request_loop_pool.
  - unfold on_tick. repeat (case_match; simpl; try exact Hd).
  - now apply on_mined_distinct.
  - now rewrite on_resume_pool.
Qed.

Lemma run_distinct (cfg : Options) (events : list Event) (s : Node) :
  forallb gossip_path events = true ->
  distinct_timestamps (pool_of s) ->
  distinct_timestamps (pool_of (run cfg s events)).
Proof.
  revert s. induction events as [|e events IH]; intros s He Hd; [exact Hd|].
  simpl in He. apply andb_prop in He. destruct He as [He Hes].
  apply IH; [exact Hes|]. now apply step_distinct.
Qed.

Lemma startServer_pool (opts : Options) (sdb : gmap string Account)
    (bdb : gmap string Block.t) :
  pool_of (state_of (startServer opts sdb bdb)) = [].
Proof.
  assert (Hc : forall peers s,
             pool_of (foldl (fun s peer => connect (MY_ADDRESS opts) peer s)
                        s peers) = pool_of s).
  { induction peers as [|p peers IH]; intros s; [reflexivity|].
    simpl. now rewrite IH, connect_pool. }
  unfold startServer, load_chain, boot.
  repeat (case_match; simplify_eq; simpl; try reflexivity);
    unfold pool_of in *; simpl; rewrite ?Hc; try reflexivity;
    apply (Hc (PEERS opts)).
Qed.

(** C10: starting from the empty pool of a fresh node, no sequence of gossip
    messages, socket events, timer ticks and mining results puts two
    transactions of one sender with the same timestamp into the pool: the
    transaction handler refuses a used timestamp and block acceptance only
    filters the pool. *)
Theorem pool_distinct_timestamps (opts : Options) (sdb : gmap string Account)
    (bdb : gmap string Block.t) (events : list Event) :
  forallb gossip_path events = true ->
  distinct_timestamps
    (pool_of (run opts (state_of (startServer opts sdb bdb)) events)).
Proof.
  intros He. apply run_distinct; [exact He|].
  rewrite startServer_pool. exact I.
Qed.

End PoolInvariant.

(** ** The handlers on the concrete chain *)

Lemma on_NEW_BLOCK_same_parent_witness :
  on_NEW_BLOCK (H := Scenario.core) (Scenario.options true false)
    Scenario.genesis
    (Scenario.synced [])
  = Done (Scenario.synced []).
Proof. apply on_NEW_BLOCK_same_parent. reflexivity. Defined.

Lemma on_REQUEST_BLOCK_unknown_peer_witness :
  on_REQUEST_BLOCK (Num 1) "ws://c"
    (Scenario.synced [])
  = Threw TypeError
      (Scenario.synced []).
Proof.
  apply on_REQUEST_BLOCK_unknown_peer.
  - reflexivity.
  - simpl. intros node [<-|[]]. simpl. discriminate.
Defined.



Lemma loopMine_never_dispatches_witness :
  exists s0,
    startServer (H := Scenario.core) (Scenario.options true true) ∅ ∅
    = Done s0
    /\ dispatched
         (trace (run (H := Scenario.core) (Scenario.options true true) s0
                   sync_then_gossip)) = [].
Proof.
  apply (loopMine_never_dispatches (H := Scenario.core)
           (Scenario.options true true) ∅ ∅ sync_then_gossip);
    reflexivity.
Defined.

(** On that run the block message does clear the sync flag of the node and
    moves the head to height 2, and the two ticks that follow find the loop
    still holding the start-up value. *)
Example sync_flag_cleared_loop_flag_kept :
  let s := run (H := Scenario.core) (Scenario.options true true)
             (state_of (startServer (H := Scenario.core)
                          (Scenario.options true true) ∅ ∅))
             sync_then_gossip in
  ENABLE_CHAIN_REQUEST s = false
  /\ Block.blockNumber (ChainInfo.latestBlock (chainInfo s)) = 2
  /\ loop s = Some {| lm_ENABLE_CHAIN_REQUEST := true; lm_length := 2;
                      lm_mining := false |}
  /\ dispatched (trace s) = [].
Proof. vm_compute. repeat split. Qed.

(** The same events on a node that mines without syncing do reach the
    worker. *)
Example mining_node_dispatches :
  dispatched
    (trace (run (H := Scenario.core) (Scenario.options true false)
              (state_of (startServer (H := Scenario.core)
                           (Scenario.options true false) ∅ ∅))
              [EvTick 9]))
  <> [].
Proof. vm_compute. discriminate. Qed.

Lemma pool_distinct_timestamps_witness :
  distinct_timestamps (H := Scenario.core)
    (pool_of
       (run (H := Scenario.core) (Scenario.options false false)
          (state_of (startServer (H := Scenario.core)
                       (Scenario.options false false) alice_funded ∅))
          replayed_submissions)).
Proof.
  apply (pool_distinct_timestamps (H := Scenario.core)
           (Scenario.options false false) alice_funded ∅
           replayed_submissions).
  reflexivity.
Defined.

(** On that run the second submission, which reuses timestamp 1, is dropped;
    the other two are pooled and each is sent on to the open peer. *)
Example replayed_submission_dropped :
  let s := run (H := Scenario.core) (Scenario.options false false)
             (state_of (startServer (H := Scenario.core)
                          (Scenario.options false false) alice_funded ∅))
             replayed_submissions in
  pool_of s
  = [Scenario.pay "alice" "bob" 10 None 1;
     Scenario.pay "alice" "carol" 5 None 2]
  /\ List.filter (fun e => match e with
                           | Send _ (CREATE_TRANSACTION _) => true
                           | _ => false
                           end) (trace s)
     = [Send "ws://b"
          (CREATE_TRANSACTION (Scenario.pay "alice" "bob" 10 None 1));
        Send "ws://b"
          (CREATE_TRANSACTION (Scenario.pay "alice" "carol" 5 None 2))].
Proof. vm_compute. split; reflexivity. Qed.

(** A transaction of the sender that fits the balance and carries a fresh
    timestamp is pooled and sent to the open peer. *)
Example create_transaction_admitted :
  let tx := Scenario.pay "alice" "bob" 10 None 2 in
  let pooled := Scenario.pay "alice" "bob" 10 None 1 in
  let s := Scenario.synced [pooled] in
  exists s',
    on_CREATE_TRANSACTION (H := Scenario.core) tx s = Done s'
    /\ pool_of s' = [pooled; tx]
    /\ trace s' = [Send "ws://b" (CREATE_TRANSACTION tx)].
Proof. eexists. vm_compute. repeat split. Qed.

(** The candidate block of the concrete chain with one pooled transaction. *)
Example candidate_reward :
  let tx := Scenario.pay "alice" "bob" 10 (Some 10000000) 1 in
  let s := Scenario.node Scenario.funds [tx] [] false (Num 1) None in
  map Transaction.amount
    (Block.transactions
       (candidate (H := Scenario.core) "miner" 9 (chainInfo s)))
  = [202297000000000000 + 1000000000000 + 10000000; 10].
Proof. vm_compute. reflexivity. Qed.

(** The RPC route answers before the pool is touched, also for a transaction
    that the pool refuses. *)
Example rpc_reply_for_invalid_transaction :
  let tx := Scenario.pay "mallory" "bob" 10 None 1 in
  let s := Scenario.synced [] in
  trace (handleSendTransaction (H := Scenario.core) (JsObject tx) s)
  = [Reply 200 true received; Send "ws://b" (CREATE_TRANSACTION tx);
     AddTransaction tx]
  /\ pool_of (handleSendTransaction (H := Scenario.core) (JsObject tx) s) = [].
Proof. vm_compute. split; reflexivity. Qed.

Example rpc_reply_without_transaction :
  let s := Scenario.synced [] in
  trace (handleSendTransaction (H := Scenario.core) JsNull s)
  = [Reply 400 false invalid_request].
Proof. reflexivity. Qed.

Example parseInt_decimal : parseInt "12" = Num 12.
Proof. reflexivity. Qed.

Example parseInt_hex : parseInt "0x1f" = Num 31.
Proof. reflexivity. Qed.

Example parseInt_not_a_number : parseInt "abc" = NaN.
Proof. reflexivity. Qed.

Example parseInt_signed_prefix : parseInt " -42px" = Num (-42).
Proof. reflexivity. Qed.

Example toString_negative : toString (-305) = "-305".
Proof. reflexivity. Qed.

Example Math_max_empty : Math_max [] = NegInf.
Proof. reflexivity. Qed.

(** * Further properties of the node *)

(** ** Effects only extend the trace *)

Lemma emit_nil (s : Node) : emit [] s = s.
Proof. destruct s. unfold emit. simpl. now rewrite app_nil_r. Qed.

Lemma emit_emit (a b : list Effect) (s : Node) :
  emit b (emit a s) = emit (a ++ b) s.
Proof. unfold emit. simpl. now rewrite app_assoc. Qed.

Section Startup.

Context `{Core}.

(** Dialling the configured peers only adds [Dial] effects, none of them to
    the node's own address. *)
Lemma connect_all_emit (me : string) (peers : list string) (s : Node) :
  exists es,
    foldl (fun s peer => connect me peer s) s peers = emit es s
    /\ Forall (fun e => exists a, e = Dial a /\ a <> me) es.
Proof.
  revert s. induction peers as [|p peers IH]; intros s.
  - exists []. split; [now rewrite emit_nil | constructor].
  - simpl. destruct (IH (connect me p s)) as (es & -> & Hes).
    unfold connect. destruct (not_found p (connected s)) eqn:Hnf; simpl.
    + destruct (String.eqb p me) eqn:Hme; simpl.
      * exists es. auto.
      * exists (Dial p :: es). split; [apply emit_emit|].
        constructor; [|exact Hes]. exists p. split; [reflexivity|].
        now apply String.eqb_neq.
    + exists es. auto.
Qed.

Lemma well_keyed_insert (b : Block.t) (db : gmap string Block.t) :
  well_keyed db -> well_keyed (<[toString (Block.blockNumber b) := b]> db).
Proof.
  intros Hdb k b' Hk. rewrite lookup_insert in Hk.
  destruct (decide (toString (Block.blockNumber b) = k)) as [<-|Hne].
  - now injection Hk as <-.
  - now apply Hdb.
Qed.

Lemma request_loop_blockDB (cfg : Options) (index : nat) (s : Node) :
  blockDB (request_loop cfg index s) = blockDB s.
Proof. unfold request_loop. case_match; reflexivity. Qed.

Lemma take_block_blockDB (cfg : Options) (b : Block.t) (s : Node) :
  blockDB (take_block cfg b s)
  = <[toString (Block.blockNumber b) := b]> (blockDB s).
Proof.
  unfold take_block. cbv zeta. rewrite request_loop_blockDB.
  simpl. case_match; reflexivity.
Qed.

(** What a step may do to the block store: nothing, or one [put] of a block
    under its printed number. *)
Lemma step_blockDB (cfg : Options) (s : Node) (e : Event) :
  blockDB (step cfg s e) = blockDB s
  \/ exists b,
       blockDB (step cfg s e)
       = <[toString (Block.blockNumber b) := b]> (blockDB s).
Proof.
  destruct e as [m|a|a| |now|result|v|k]; simpl.
  - destruct m; simpl.
    + unfold connect. case_match; auto.
    + unfold on_CREATE_TRANSACTION. repeat (case_match; simpl; auto).
    + unfold on_NEW_BLOCK. repeat (case_match; simpl; auto); right; eauto.
    + unfold on_REQUEST_BLOCK. repeat (case_match; simpl; auto).
    + unfold on_SEND_BLOCK. repeat (case_match; simpl; auto).
      right. eexists. apply take_block_blockDB.
    + auto.
  - unfold on_open. repeat (case_match; simpl; auto).
  - auto.
  - unfold on_sync_timer. case_match; auto using request_loop_blockDB.
  - unfold on_tick. repeat (case_match; simpl; auto).
  - unfold on_mined. case_match; simpl; [right; eauto | auto].
  - unfold handleSendTransaction, sendTransaction.
    repeat (case_match; simplify_eq; simpl; auto).
  - unfold on_resume. repeat (case_match; simpl; auto).
    + right. eexists. rewrite take_block_blockDB. reflexivity.
    + left. now rewrite request_loop_blockDB.
Qed.

Lemma startServer_blockDB (opts : Options) (sdb : gmap string Account)
    (bdb : gmap string Block.t) :
  blockDB (state_of (startServer opts sdb bdb)) = bdb
  \/ blockDB (state_of (startServer opts sdb bdb))
     = <[toString (Block.blockNumber generateGenesisBlock)
         := generateGenesisBlock]> bdb.
Proof.
  unfold startServer.
  destruct (load_chain (boot opts sdb bdb)) as [s1|e s1] eqn:Hload.
  - destruct (connect_all_emit (MY_ADDRESS opts) (PEERS opts) s1)
      as (es & -> & _).
    assert (Hs1 : blockDB s1 = bdb
                  \/ blockDB s1
                     = <[toString (Block.blockNumber generateGenesisBlock)
                         := generateGenesisBlock]> bdb).
    { unfold load_chain, boot in Hload.
      repeat (case_match; simplify_eq; simpl in *; auto). }
    repeat (case_match; simpl; auto).
  - unfold load_chain, boot in Hload.
    repeat (case_match; simplify_eq; simpl in *; auto).
Qed.

(** Every block a node ever stores sits under the printed form of its own
    number: the stores written by start-up, by the block handlers and by the
    mining callback all use [blockNumber.toString()] as the key. *)
Theorem blockDB_stays_well_keyed (opts : Options) (sdb : gmap string Account)
    (bdb : gmap string Block.t) (events : list Event) :
  well_keyed bdb ->
  well_keyed (blockDB (run opts (state_of (startServer opts sdb bdb)) events)).
Proof.
  intros Hdb.
  assert (Hstart : well_keyed (blockDB (state_of (startServer opts sdb bdb)))).
  { destruct (startServer_blockDB opts sdb bdb) as [->| ->];
      [exact Hdb | now apply well_keyed_insert]. }
  revert Hstart. generalize (state_of (startServer opts sdb bdb)).
  induction events as [|e events IH]; intros s Hs; [exact Hs|].
  simpl. apply IH.
  destruct (step_blockDB opts s e) as [->|[b ->]];
    [exact Hs | now apply well_keyed_insert].
Qed.

(** A node that does not sync and finds a non-empty, well keyed store resumes
    from the stored block with the largest number and takes over its
    difficulty; the lookup of that block never fails. *)
Theorem load_chain_resumes_from_highest (s : Node) :
  ENABLE_CHAIN_REQUEST s = false ->
  blockDB s <> ∅ ->
  well_keyed (blockDB s) ->
  exists head,
    load_chain s
    = Done (set_chainInfo
              (set_difficulty (Block.difficulty head)
                 (set_latestBlock head (chainInfo s))) s)
    /\ blockDB s !! toString (Block.blockNumber head) = Some head
    /\ (forall k b, blockDB s !! k = Some b ->
          Block.blockNumber b <= Block.blockNumber head).
Proof.
  intros Hsync Hne Hdb. unfold load_chain. rewrite Hsync. simpl.
  destruct (keys (blockDB s)) as [|k0 ks] eqn:Hkeys.
  { apply keys_nil in Hkeys. contradiction. }
  simpl Nat.eqb. cbv iota.
  destruct (JSFacts.Math_max_keys (k0 :: ks)) as (m & Hm & Hin & Hmax);
    [congruence | |].
  { intros k Hk. rewrite <- Hkeys in Hk. apply keys_dom, elem_of_dom in Hk.
    destruct Hk as [b Hb]. exists (Block.blockNumber b). eauto. }
  rewrite Hm. simpl toString_num.
  rewrite <- Hkeys in Hin. apply keys_dom, elem_of_dom in Hin.
  destruct Hin as [head Hhead]. rewrite Hhead.
  pose proof (Hdb _ _ Hhead) as Em. apply JSFacts.toString_inj in Em.
  subst m. exists head. split; [reflexivity|]. split; [exact Hhead|].
  intros k b Hb. apply Hmax. rewrite <- Hkeys. apply keys_dom, elem_of_dom.
  rewrite <- (Hdb _ _ Hb). eauto.
Qed.

End Startup.

(** ** Serving and accepting blocks *)

Section Blocks.

Context `{Core}.

(** On a well keyed store the largest parsed key bounds every stored block
    number. *)
Lemma Math_max_blockDB (db : gmap string Block.t) :
  well_keyed db ->
  db <> ∅ ->
  exists m,
    Math_max (map parseInt (keys db)) = Num m
    /\ is_Some (db !! toString m)
    /\ (forall k b, db !! k = Some b -> Block.blockNumber b <= m).
Proof.
  intros Hdb Hne.
  destruct (JSFacts.Math_max_keys (keys db)) as (m & Hm & Hin & Hmax).
  - intros E. now apply keys_nil in E.
  - intros k Hk. apply keys_dom, elem_of_dom in Hk. destruct Hk as [b Hb].
    exists (Block.blockNumber b). eauto.
  - exists m. split; [exact Hm|]. split.
    + now apply elem_of_dom, keys_dom.
    + intros k b Hb. apply Hmax, keys_dom, elem_of_dom.
      rewrite <- (Hdb _ _ Hb). eauto.
Qed.

Lemma serve_stored (n : Z) (requestAddress : string) (s : Node)
    (node : Peer.t) (b : Block.t) :
  ENABLE_CHAIN_REQUEST s = false ->
  List.find (fun node => String.eqb (Peer.address node) requestAddress)
    (opened s) = Some node ->
  well_keyed (blockDB s) ->
  0 < n ->
  blockDB s !! toString n = Some b ->
  on_REQUEST_BLOCK (Num n) requestAddress s
  = Done (emit [Send (Peer.socket node) (SEND_BLOCK b)] s).
Proof.
  intros Hsync Hfind Hdb Hn Hb. unfold on_REQUEST_BLOCK.
  rewrite Hsync, Hfind. simpl negb. cbv iota.
  destruct (Math_max_blockDB (blockDB s) Hdb) as (m & Hm & _ & Hmax).
  { intros E. rewrite E, lookup_empty in Hb. discriminate. }
  rewrite Hm. simpl.
  pose proof (Hmax _ _ Hb) as Hle.
  pose proof (Hdb _ _ Hb) as En. apply JSFacts.toString_inj in En.
  replace (0 <? n) with true by (symmetry; apply Z.ltb_lt; lia).
  replace (n <=? m) with true by (symmetry; apply Z.leb_le; lia).
  simpl. now rewrite Hb.
Qed.

(** On a store whose blocks sit under the decimal string of their own
    number, a synced node answers a request of an open peer for a stored
    block of positive number with exactly one [SEND_BLOCK] carrying that
    block, on the requester's socket, and changes nothing else. *)
Theorem on_REQUEST_BLOCK_serves_stored_block (n : Z) (requestAddress : string)
    (s : Node) (node : Peer.t) (b : Block.t) :
  ENABLE_CHAIN_REQUEST s = false ->
  List.find (fun node => String.eqb (Peer.address node) requestAddress)
    (opened s) = Some node ->
  well_keyed (blockDB s) ->
  0 < n ->
  blockDB s !! toString n = Some b ->
  on_REQUEST_BLOCK (Num n) requestAddress s
  = Done (emit [Send (Peer.socket node) (SEND_BLOCK b)] s)
  /\ Block.blockNumber b = n.
Proof.
  intros Hsync Hfind Hdb Hn Hb. split.
  - now apply serve_stored.
  - pose proof (Hdb _ _ Hb) as En. now apply JSFacts.toString_inj in En.
Qed.

(** On a store whose blocks sit under the decimal string of their own
    number, a request of an open peer for block 0, for a negative number or
    for a number above every stored block is dropped without any reply: from
    such a store the genesis block is never served. *)
Theorem on_REQUEST_BLOCK_out_of_range (n : Z) (requestAddress : string)
    (s : Node) (node : Peer.t) :
  List.find (fun node => String.eqb (Peer.address node) requestAddress)
    (opened s) = Some node ->
  well_keyed (blockDB s) ->
  n <= 0 \/ (forall k b, blockDB s !! k = Some b -> Block.blockNumber b < n) ->
  on_REQUEST_BLOCK (Num n) requestAddress s = Done s.
Proof.
  intros Hfind Hdb Hrange. unfold on_REQUEST_BLOCK.
  destruct (ENABLE_CHAIN_REQUEST s); [reflexivity|]. simpl negb. cbv iota.
  rewrite Hfind.
  destruct Hrange as [Hn|Habove].
  - simpl. replace (0 <? n) with false by (symmetry; apply Z.ltb_ge; lia).
    reflexivity.
  - destruct (decide (blockDB s = ∅)) as [E|Hne].
    + apply keys_nil in E. rewrite E. simpl.
      destruct (0 <? n); reflexivity.
    + destruct (Math_max_blockDB (blockDB s) Hdb Hne) as (m & Hm & [b Hb] & _).
      rewrite Hm. simpl.
      pose proof (Habove _ _ Hb) as Hlt.
      pose proof (Hdb _ _ Hb) as En. apply JSFacts.toString_inj in En.
      replace (n <=? m) with false by (symmetry; apply Z.leb_gt; lia).
      now rewrite andb_false_r.
Qed.

Lemma accept_new_block (cfg : Options) (newBlock : Block.t) (s : Node) :
  Block.parentHash newBlock
  <> Block.parentHash (ChainInfo.latestBlock (chainInfo s)) ->
  ENABLE_CHAIN_REQUEST s = false
  \/ (exists h, currentSyncBlock s = Num h /\ 1 < h) ->
  verifyBlock newBlock (chainInfo s) (stateDB s) = true ->
  exists s',
    on_NEW_BLOCK cfg newBlock s = Done s' /\ accepted_block cfg newBlock s s'.
Proof.
  intros Hparent Hready Hverify. unfold on_NEW_BLOCK.
  apply String.eqb_neq in Hparent. rewrite Hparent, Hverify.
  assert (Hguard : negb (ENABLE_CHAIN_REQUEST s)
                   || ENABLE_CHAIN_REQUEST s && JS.gt (currentSyncBlock s) (Num 1)
                   = true).
  { destruct Hready as [->|(h & -> & Hh)]; [reflexivity|].
    simpl. replace (1 <? h) with true by (symmetry; apply Z.ltb_lt; lia).
    destruct (ENABLE_CHAIN_REQUEST s); reflexivity. }
  rewrite Hguard. simpl.
  eexists. split; [reflexivity|].
  unfold accepted_block, pool_of.
  destruct (ENABLE_MINING cfg); simpl;
    destruct (ENABLE_CHAIN_REQUEST s) eqn:Hsync; simpl;
    rewrite <- ?app_assoc; repeat split; exact Hsync.
Qed.

(** A block that passes the parent-hash guard, arrives on a node that is
    synced or past sync height 1, and verifies is accepted: it is stored
    under its number, becomes the head, moves the state, re-validates the
    pool, ends sync mode, pre-empts the worker of a mining node and is sent
    on to every open peer. *)
Theorem on_NEW_BLOCK_accepts (cfg : Options) (newBlock : Block.t) (s : Node) :
  Block.parentHash newBlock
  <> Block.parentHash (ChainInfo.latestBlock (chainInfo s)) ->
  ENABLE_CHAIN_REQUEST s = false
  \/ (exists h, currentSyncBlock s = Num h /\ 1 < h) ->
  verifyBlock newBlock (chainInfo s) (stateDB s) = true ->
  exists s',
    on_NEW_BLOCK cfg newBlock s = Done s' /\ accepted_block cfg newBlock s s'.
Proof. apply accept_new_block. Qed.

Lemma new_block_cases (cfg : Options) (newBlock : Block.t)
    (s : Node) :
  on_NEW_BLOCK cfg newBlock s = Done s
  \/ (verifyBlock newBlock (chainInfo s) (stateDB s) = true
      /\ Block.parentHash newBlock
         <> Block.parentHash (ChainInfo.latestBlock (chainInfo s))
      /\ (ENABLE_CHAIN_REQUEST s = false
          \/ exists h, currentSyncBlock s = Num h /\ 1 < h)
      /\ exists s',
           on_NEW_BLOCK cfg newBlock s = Done s'
           /\ accepted_block cfg newBlock s s').
Proof.
  destruct (String.eqb (Block.parentHash newBlock)
              (Block.parentHash (ChainInfo.latestBlock (chainInfo s))))
    eqn:Hparent.
  { left. unfold on_NEW_BLOCK. now rewrite Hparent. }
  apply String.eqb_neq in Hparent.
  destruct (verifyBlock newBlock (chainInfo s) (stateDB s)) eqn:Hverify.
  2:{ left. unfold on_NEW_BLOCK. rewrite Hverify. now case_match. }
  destruct (ENABLE_CHAIN_REQUEST s) eqn:Hsync.
  2:{ right. repeat split; auto. apply accept_new_block; auto. }
  destruct (JS.gt (currentSyncBlock s) (Num 1)) eqn:Hgt.
  - assert (Hh : exists h, currentSyncBlock s = Num h /\ 1 < h).
    { destruct (currentSyncBlock s) as [h| |]; try discriminate.
      exists h. split; [reflexivity|]. now apply Z.ltb_lt. }
    right. repeat split; auto. apply accept_new_block; auto.
  - left. unfold on_NEW_BLOCK. rewrite Hsync, Hgt. simpl.
    now rewrite andb_false_r.
Qed.

(** On a store whose blocks sit under the decimal string of their own
    number, a block of positive number that is accepted from the network can
    be fetched back: a request of an open peer for its number is answered
    with that very block. *)
Theorem accepted_block_is_served (cfg : Options) (newBlock : Block.t)
    (s : Node) (requestAddress : string) (node : Peer.t) :
  Block.parentHash newBlock
  <> Block.parentHash (ChainInfo.latestBlock (chainInfo s)) ->
  ENABLE_CHAIN_REQUEST s = false
  \/ (exists h, currentSyncBlock s = Num h /\ 1 < h) ->
  verifyBlock newBlock (chainInfo s) (stateDB s) = true ->
  well_keyed (blockDB s) ->
  0 < Block.blockNumber newBlock ->
  List.find (fun node => String.eqb (Peer.address node) requestAddress)
    (opened s) = Some node ->
  exists s',
    on_NEW_BLOCK cfg newBlock s = Done s'
    /\ on_REQUEST_BLOCK (Num (Block.blockNumber newBlock)) requestAddress s'
       = Done (emit [Send (Peer.socket node) (SEND_BLOCK newBlock)] s').
Proof.
  intros Hparent Hready Hverify Hdb Hpos Hfind.
  destruct (accept_new_block cfg newBlock s Hparent Hready Hverify)
    as (s' & Hs' & Hacc).
  exists s'. split; [exact Hs'|].
  destruct Hacc as (Hb & _ & _ & _ & _ & _ & Hsync & _ & Hop & _).
  apply serve_stored; auto.
  - now rewrite Hop.
  - rewrite Hb. now apply well_keyed_insert.
  - rewrite Hb. apply lookup_insert_eq.
Qed.

(** While no block was synced before, a block response is taken without a
    pause, so a second copy of it finds the sync height moved on and is
    ignored. *)
Theorem on_SEND_BLOCK_first_block_repeat_ignored (cfg : Options)
    (block : Block.t) (s : Node) :
  ChainInfo.latestSyncBlock (chainInfo s) = None ->
  on_SEND_BLOCK cfg block (state_of (on_SEND_BLOCK cfg block s))
  = Done (state_of (on_SEND_BLOCK cfg block s)).
Proof.
  intros Hfirst. unfold on_SEND_BLOCK at 2 3. rewrite Hfirst.
  destruct (ENABLE_CHAIN_REQUEST s
            && strict_eq (currentSyncBlock s) (Num (Block.blockNumber block)))
    eqn:Hguard; simpl.
  - apply andb_prop in Hguard. destruct Hguard as [_ Hheight].
    destruct (take_block_took cfg block s) as (_ & Hnext & _).
    unfold on_SEND_BLOCK. rewrite Hnext.
    destruct (currentSyncBlock s) as [h| |]; try discriminate.
    simpl in *. apply Z.eqb_eq in Hheight.
    replace (h + 1 =? Block.blockNumber block) with false
      by (symmetry; apply Z.eqb_neq; lia).
    now rewrite andb_false_r.
  - unfold on_SEND_BLOCK. now rewrite Hguard.
Qed.

Lemma lookup_parked (su : list Task) (t : Task) (rest : list Task) :
  (su ++ t :: rest) !! length su = Some t.
Proof. now apply list_lookup_middle. Qed.

Lemma delete_parked (su : list Task) (t : Task) (rest : list Task) :
  delete (length su) (su ++ t :: rest) = su ++ rest.
Proof. apply delete_middle. Qed.

Lemma took_block_parked (cfg : Options) (block : Block.t) (s s' : Node)
    (su rest : list Task) :
  took_block cfg block s s' ->
  suspended s = su ++ rest ->
  exists rest', suspended s' = su ++ rest'
                /\ (rest' = rest \/ rest' = rest ++ [RequestLoop 1]).
Proof.
  intros (_ & _ & _ & _ & _ & _ & _ & _ & _ & Hloop) Hsu.
  destruct (opened s).
  - destruct Hloop as [_ ->]. eauto.
  - destruct Hloop as [_ ->]. rewrite Hsu, <- app_assoc. eauto.
Qed.

(** After the first synced block a response is verified before it is taken,
    and the sync height only moves once the verification is over: two copies
    that arrive before that both pass the height test, and when the two
    verifications are over the block has been applied to the state twice and
    the sync height has moved by two. *)
Theorem on_SEND_BLOCK_repeat_taken_twice (cfg : Options) (block : Block.t)
    (s : Node) :
  ENABLE_CHAIN_REQUEST s = true ->
  currentSyncBlock s = Num (Block.blockNumber block) ->
  ChainInfo.latestSyncBlock (chainInfo s) <> None ->
  verifyBlock block (chainInfo s) (stateDB s) = true ->
  let k := length (suspended s) in
  let s' := run cfg s [EvMessage (SEND_BLOCK block);
                       EvMessage (SEND_BLOCK block);
                       EvResume k; EvResume k] in
  currentSyncBlock s' = Num (Block.blockNumber block + 2)
  /\ stateDB s'
     = changeState block (changeState block (stateDB s) false) false.
Proof.
  intros Hsync Hheight Hlater Hverify k s'. subst k s'.
  destruct (ChainInfo.latestSyncBlock (chainInfo s)) as [first|] eqn:Hlsb;
    [clear Hlater | now destruct Hlater].
  assert (Hpark : forall s0,
            ENABLE_CHAIN_REQUEST s0 = true ->
            currentSyncBlock s0 = Num (Block.blockNumber block) ->
            ChainInfo.latestSyncBlock (chainInfo s0) = Some first ->
            on_SEND_BLOCK cfg block s0
            = Done (suspend
                      (AwaitVerify block
                         (verifyBlock block (chainInfo s0) (stateDB s0)))
                      s0)).
  { intros s0 H1 H2 H3. unfold on_SEND_BLOCK. rewrite H1, H2, H3. simpl.
    now rewrite Z.eqb_refl. }
  simpl. rewrite (Hpark s Hsync Hheight Hlsb), Hverify. simpl.
  rewrite Hpark by assumption. simpl. rewrite Hverify.
  set (t := AwaitVerify block true).
  set (s2 := suspend t (suspend t s)).
  assert (Hsu2 : suspended s2 = suspended s ++ [t; t]).
  { subst s2. unfold suspend. simpl. now rewrite <- app_assoc. }
  set (s2' := set_suspended (suspended s ++ [t]) s2).
  assert (H3 : on_resume cfg (length (suspended s)) s2
               = take_block cfg block s2').
  { unfold on_resume. rewrite Hsu2, lookup_parked, delete_parked.
    reflexivity. }
  rewrite H3. clear H3.
  pose proof (take_block_took cfg block s2') as Htook3.
  set (s3 := take_block cfg block s2') in *.
  destruct (took_block_parked cfg block s2' s3 (suspended s) [t] Htook3
              eq_refl) as (rest & Hsu3 & Hrest).
  assert (Hsu3' : exists rest', suspended s3 = suspended s ++ t :: rest').
  { destruct Hrest as [->| ->]; rewrite Hsu3; simpl; eauto. }
  destruct Hsu3' as (rest' & Hsu3').
  set (s3' := set_suspended (suspended s ++ rest') s3).
  assert (H4 : on_resume cfg (length (suspended s)) s3
               = take_block cfg block s3').
  { unfold on_resume. rewrite Hsu3', lookup_parked, delete_parked.
    reflexivity. }
  rewrite H4. clear H4.
  destruct (take_block_took cfg block s3')
    as (_ & Hh4 & _ & _ & Hst4 & _).
  destruct Htook3 as (_ & Hh3 & _ & _ & Hst3 & _).
  rewrite Hh4, Hst4. subst s3'. simpl. rewrite Hh3, Hst3.
  subst s2' s2. simpl. rewrite Hheight. simpl.
  split; [f_equal; lia | reflexivity].
Qed.

End Blocks.

(** ** Sync mode, the pool and the mining loop over whole runs *)

Section Runs.

Context `{Core}.

Lemma request_loop_flag (cfg : Options) (index : nat) (s : Node) :
  ENABLE_CHAIN_REQUEST (request_loop cfg index s) = ENABLE_CHAIN_REQUEST s.
Proof. unfold request_loop. case_match; reflexivity. Qed.

Lemma take_block_flag (cfg : Options) (b : Block.t) (s : Node) :
  ENABLE_CHAIN_REQUEST (take_block cfg b s) = ENABLE_CHAIN_REQUEST s.
Proof.
  unfold take_block. cbv zeta. rewrite request_loop_flag.
  simpl. case_match; reflexivity.
Qed.

Lemma on_resume_flag (cfg : Options) (k : nat) (s : Node) :
  ENABLE_CHAIN_REQUEST (on_resume cfg k s) = ENABLE_CHAIN_REQUEST s.
Proof.
  unfold on_resume. repeat (case_match; simpl; try reflexivity).
  - now rewrite take_block_flag.
  - now rewrite request_loop_flag.
Qed.

Lemma step_synced (cfg : Options) (s : Node) (e : Event) :
  ENABLE_CHAIN_REQUEST s = false ->
  ENABLE_CHAIN_REQUEST (step cfg s e) = false.
Proof.
  intros Hsync. destruct e as [m|a|a| |now|result|v|k]; simpl.
  - destruct m; simpl.
    + unfold connect. case_match; auto.
    + unfold on_CREATE_TRANSACTION. repeat (case_match; simpl; auto).
    + unfold on_NEW_BLOCK. rewrite Hsync.
      repeat (case_match; simpl; auto).
    + unfold on_REQUEST_BLOCK. repeat (case_match; simpl; auto).
    + unfold on_SEND_BLOCK. rewrite Hsync. auto.
    + auto.
  - unfold on_open. repeat (case_match; simpl; auto).
  - auto.
  - unfold on_sync_timer. case_match; auto. now rewrite request_loop_flag.
  - unfold on_tick. repeat (case_match; simpl; auto).
  - unfold on_mined. case_match; simpl; auto.
  - unfold handleSendTransaction, sendTransaction.
    repeat (case_match; simplify_eq; simpl; auto).
  - now rewrite on_resume_flag.
Qed.

(** Once the sync flag is cleared it stays cleared, whatever happens next,
    also when block responses that were parked before are resumed; every
    block response that arrives from then on is ignored. *)
Theorem sync_mode_never_resumes (cfg : Options) (s : Node)
    (events : list Event) :
  ENABLE_CHAIN_REQUEST s = false ->
  ENABLE_CHAIN_REQUEST (run cfg s events) = false
  /\ forall block,
       on_SEND_BLOCK cfg block (run cfg s events) = Done (run cfg s events).
Proof.
  intros Hsync.
  assert (Hrun : ENABLE_CHAIN_REQUEST (run cfg s events) = false).
  { revert s Hsync.
    induction events as [|e events IH]; intros s Hsync; [exact Hsync|].
    simpl. apply IH. now apply step_synced. }
  split; [exact Hrun|].
  intros block. unfold on_SEND_BLOCK. now rewrite Hrun.
Qed.

Lemma on_NEW_BLOCK_pool_inv (cfg : Options) (b : Block.t) (s : Node) :
  pool_inv s -> pool_inv (state_of (on_NEW_BLOCK cfg b s)).
Proof.
  intros Hinv.
  destruct (new_block_cases cfg b s) as [->|(_ & _ & _ & s' & -> & Hacc)];
    [exact Hinv|].
  destruct Hacc as (_ & _ & _ & _ & _ & Hpool & Hsync & _).
  unfold pool_inv. simpl. congruence.
Qed.

Lemma on_CREATE_TRANSACTION_pool_inv (tx : Transaction.t) (s : Node) :
  pool_inv s -> pool_inv (state_of (on_CREATE_TRANSACTION tx s)).
Proof.
  intros Hinv. destruct (ENABLE_CHAIN_REQUEST s) eqn:Hsync.
  - rewrite on_CREATE_TRANSACTION_syncing by exact Hsync. exact Hinv.
  - rewrite on_CREATE_TRANSACTION_admits by exact Hsync.
    destruct (admits tx s) eqn:Ha; [|exact Hinv].
    unfold pool_inv. simpl. congruence.
Qed.

Lemma on_SEND_BLOCK_pool_inv (cfg : Options) (b : Block.t) (s : Node) :
  pool_inv s -> pool_inv (state_of (on_SEND_BLOCK cfg b s)).
Proof.
  intros Hinv. unfold pool_inv.
  rewrite on_SEND_BLOCK_pool. unfold on_SEND_BLOCK.
  repeat (case_match; simpl; try exact Hinv).
  now rewrite take_block_flag.
Qed.

Lemma on_resume_pool_inv (cfg : Options) (k : nat) (s : Node) :
  pool_inv s -> pool_inv (on_resume cfg k s).
Proof.
  intros Hinv. unfold pool_inv. now rewrite on_resume_flag, on_resume_pool.
Qed.

Lemma on_mined_pool_inv (cfg : Options) (b : Block.t) (s : Node) :
  pool_inv s -> pool_inv (on_mined cfg b s).
Proof.
  intros Hinv. unfold on_mined.
  destruct (mined s); simpl; [exact Hinv|].
  intros Hsync. unfold pool_inv, pool_of in *. simpl.
  now rewrite (Hinv Hsync).
Qed.

Lemma step_pool_inv (cfg : Options) (s : Node) (e : Event) :
  gossip_path e = true -> pool_inv s -> pool_inv (step cfg s e).
Proof.
  intros He Hinv. destruct e as [m|a|a| |now|result|v|k]; simpl;
    try discriminate.
  - destruct m; simpl.
    + unfold connect. case_match; exact Hinv.
    + now apply on_CREATE_TRANSACTION_pool_inv.
    + now apply on_NEW_BLOCK_pool_inv.
    + unfold on_REQUEST_BLOCK. repeat (case_match; simpl; try exact Hinv).
    + now apply on_SEND_BLOCK_pool_inv.
    + exact Hinv.
  - unfold on_open. repeat (case_match; simpl; try exact Hinv).
  - exact Hinv.
  - unfold on_sync_timer. case_match; [|exact Hinv].
    unfold pool_inv. now rewrite request_loop_flag, request_loop_pool.
  - unfold on_tick. repeat (case_match; simpl; try exact Hinv).
  - now apply on_mined_pool_inv.
  - now apply on_resume_pool_inv.
Qed.

Lemma startServer_pool_inv (opts : Options) (sdb : gmap string Account)
    (bdb : gmap string Block.t) :
  pool_inv (state_of (startServer opts sdb bdb)).
Proof. intros _. apply startServer_pool. Qed.

Lemma run_pool_inv (opts : Options) (sdb : gmap string Account)
    (bdb : gmap string Block.t) (events : list Event) :
  forallb gossip_path events = true ->
  pool_inv (run opts (state_of (startServer opts sdb bdb)) events).
Proof.
  generalize (startServer_pool_inv opts sdb bdb).
  generalize (state_of (startServer opts sdb bdb)).
  induction events as [|e events IH]; intros s Hs He; [exact Hs|].
  simpl in He. apply andb_prop in He. destruct He as [He Hes].
  simpl. apply IH; [|exact Hes]. now apply step_pool_inv.
Qed.

(** A node that is still syncing holds no pending transaction. *)
Theorem syncing_node_pool_empty (opts : Options) (sdb : gmap string Account)
    (bdb : gmap string Block.t) (events : list Event) :
  forallb gossip_path events = true ->
  ENABLE_CHAIN_REQUEST (run opts (state_of (startServer opts sdb bdb)) events)
  = true ->
  pool_of (run opts (state_of (startServer opts sdb bdb)) events) = [].
Proof. intros He. now apply run_pool_inv. Qed.

(** On a mining node a block accepted from a peer pre-empts the worker: the
    next result the worker reports is thrown away (chain, stores and pool
    stay as the peer's block left them, nothing is broadcast), the flag is
    reset and the worker is respawned once more. *)
Theorem remote_block_preempts_mining (cfg : Options)
    (newBlock result : Block.t) (s : Node) :
  ENABLE_MINING cfg = true ->
  Block.parentHash newBlock
  <> Block.parentHash (ChainInfo.latestBlock (chainInfo s)) ->
  ENABLE_CHAIN_REQUEST s = false
  \/ (exists h, currentSyncBlock s = Num h /\ 1 < h) ->
  verifyBlock newBlock (chainInfo s) (stateDB s) = true ->
  exists s1,
    on_NEW_BLOCK cfg newBlock s = Done s1
    /\ mined s1 = true
    /\ chainInfo (on_mined cfg result s1) = chainInfo s1
    /\ ChainInfo.latestBlock (chainInfo (on_mined cfg result s1)) = newBlock
    /\ blockDB (on_mined cfg result s1) = blockDB s1
    /\ stateDB (on_mined cfg result s1) = stateDB s1
    /\ mined (on_mined cfg result s1) = false
    /\ worker (on_mined cfg result s1) = S (S (worker s))
    /\ trace (on_mined cfg result s1) = trace s1 ++ [WorkerRespawn].
Proof.
  intros Hmining Hparent Hready Hverify.
  destruct (accept_new_block cfg newBlock s Hparent Hready Hverify)
    as (s1 & Hs1 & Hacc).
  exists s1. split; [exact Hs1|].
  destruct Hacc as (_ & Hhead & _ & _ & _ & _ & _ & _ & _ & Hmined & Hw & _).
  rewrite Hmining in Hmined, Hw.
  unfold on_mined. rewrite Hmined. simpl. rewrite Hw.
  repeat split; auto.
Qed.

Lemma on_tick_twice (cfg : Options) (now now' : Z) (s : Node) :
  on_tick cfg now' (on_tick cfg now s) = on_tick cfg now s.
Proof.
  destruct s as [ci sdb bdb op co ecr csb mi wo lo tr].
  destruct lo as [[flag len mining]|]; unfold on_tick, mine; simpl;
    [|reflexivity].
  destruct (mining
            || negb (len =? Block.blockNumber (ChainInfo.latestBlock ci)))
    eqn:Hdue; simpl.
  - destruct flag; simpl; rewrite Z.eqb_refl; reflexivity.
  - rewrite Hdue. reflexivity.
Qed.

(** The mining loop hands the worker at most one candidate per head: after a
    tick, any number of further ticks leaves the node exactly as the first
    one left it. *)
Theorem idle_ticks_do_nothing (cfg : Options) (now : Z) (s : Node)
    (ticks : list Event) :
  forallb is_tick ticks = true ->
  run cfg (on_tick cfg now s) ticks = on_tick cfg now s.
Proof.
  induction ticks as [|e ticks IH]; intros Ht; [reflexivity|].
  simpl in Ht. apply andb_prop in Ht. destruct Ht as [He Ht].
  destruct e; try discriminate. simpl.
  rewrite on_tick_twice. now apply IH.
Qed.

Lemma dialled_app (t1 t2 : list Effect) :
  dialled (t1 ++ t2) = dialled t1 ++ dialled t2.
Proof. apply omap_app. Qed.

Lemma dialled_none {A : Type} (f : A -> Effect) (l : list A) :
  (forall x, match f x with Dial _ => False | _ => True end) ->
  dialled (map f l) = [].
Proof.
  intros Hf. induction l as [|x l IH]; [reflexivity|].
  simpl. specialize (Hf x). destruct (f x); try exact IH. destruct Hf.
Qed.

Ltac dial_simpl :=
  unfold sendMessage; simpl;
  rewrite ?dialled_app; simpl;
  repeat rewrite dialled_none by (intro; exact I);
  rewrite ?app_nil_r; auto.

Lemma request_loop_dialled (cfg : Options) (index : nat) (s : Node) :
  dialled (trace (request_loop cfg index s)) = dialled (trace s).
Proof. unfold request_loop. case_match; dial_simpl. Qed.

Lemma take_block_dialled (cfg : Options) (b : Block.t) (s : Node) :
  dialled (trace (take_block cfg b s)) = dialled (trace s).
Proof.
  unfold take_block. cbv zeta. rewrite request_loop_dialled.
  simpl. case_match; reflexivity.
Qed.

Lemma on_resume_dialled (cfg : Options) (k : nat) (s : Node) :
  dialled (trace (on_resume cfg k s)) = dialled (trace s).
Proof.
  unfold on_resume. repeat (case_match; simpl; try reflexivity).
  - now rewrite take_block_dialled.
  - now rewrite request_loop_dialled.
Qed.

Lemma step_dialled (cfg : Options) (s : Node) (e : Event) :
  Forall (fun a => a <> MY_ADDRESS cfg) (dialled (trace s)) ->
  Forall (fun a => a <> MY_ADDRESS cfg) (dialled (trace (step cfg s e))).
Proof.
  intros Hs. destruct e as [m|a|a| |now|result|v|k]; simpl.
  - destruct m; simpl.
    + unfold connect. destruct (not_found _ _); simpl; [|exact Hs].
      destruct (String.eqb address (MY_ADDRESS cfg)) eqn:Hme; simpl;
        [exact Hs|].
      rewrite dialled_app. apply Forall_app. split; [exact Hs|].
      constructor; [|constructor]. now apply String.eqb_neq.
    + unfold on_CREATE_TRANSACTION.
      repeat (case_match; simpl; try exact Hs); dial_simpl.
    + unfold on_NEW_BLOCK.
      repeat (case_match; simpl; try exact Hs); dial_simpl.
    + unfold on_REQUEST_BLOCK.
      repeat (case_match; simpl; try exact Hs); dial_simpl.
    + unfold on_SEND_BLOCK.
      repeat (case_match; simpl; try exact Hs).
      now rewrite take_block_dialled.
    + exact Hs.
  - unfold on_open. repeat case_match; dial_simpl.
  - exact Hs.
  - unfold on_sync_timer. case_match; [|exact Hs].
    now rewrite request_loop_dialled.
  - unfold on_tick, mine. repeat (case_match; simpl; try exact Hs); dial_simpl.
  - unfold on_mined. case_match; dial_simpl.
  - unfold handleSendTransaction, sendTransaction.
    repeat (case_match; simplify_eq; simpl); dial_simpl.
  - now rewrite on_resume_dialled.
Qed.

Lemma startServer_dialled (opts : Options) (sdb : gmap string Account)
    (bdb : gmap string Block.t) :
  Forall (fun a => a <> MY_ADDRESS opts)
    (dialled (trace (state_of (startServer opts sdb bdb)))).
Proof.
  unfold startServer.
  destruct (load_chain (boot opts sdb bdb)) as [s1|e s1] eqn:Hload.
  - assert (Ht : trace s1 = []).
    { unfold load_chain, boot in Hload.
      repeat (case_match; simplify_eq; simpl in *; auto). }
    destruct (connect_all_emit (MY_ADDRESS opts) (PEERS opts) s1)
      as (es & -> & Hes).
    assert (Hd : Forall (fun a => a <> MY_ADDRESS opts) (dialled es)).
    { clear -Hes. induction Hes as [|e es (a & -> & Ha) _ IH];
        [constructor | now constructor]. }
    repeat (case_match; simpl); rewrite Ht; exact Hd.
  - unfold load_chain, boot in Hload.
    repeat (case_match; simplify_eq; simpl in *; auto).
Qed.

(** The node never opens a socket to its own address, neither for a
    configured peer nor for an address learnt from a handshake. *)
Theorem never_dials_itself (opts : Options) (sdb : gmap string Account)
    (bdb : gmap string Block.t) (events : list Event) :
  Forall (fun a => a <> MY_ADDRESS opts)
    (dialled (trace (run opts (state_of (startServer opts sdb bdb)) events))).
Proof.
  generalize (startServer_dialled opts sdb bdb).
  generalize (state_of (startServer opts sdb bdb)).
  induction events as [|e events IH]; intros s Hs; [exact Hs|].
  simpl. apply IH. now apply step_dialled.
Qed.

End Runs.

(** ** The peer tables *)

Section Peers.

Context `{Core}.

Lemma not_found_iff (a : string) (l : list string) :
  a <> "" -> (not_found a l = true <-> ~ In a l).
Proof.
  intros Ha. unfold not_found.
  destruct (List.find (String.eqb a) l) as [x|] eqn:Hfind.
  - apply find_some in Hfind. destruct Hfind as [Hin Heq].
    apply String.eqb_eq in Heq. subst x.
    destruct a; [congruence|]. split; [discriminate | tauto].
  - split; [|reflexivity]. intros _ Hin.
    pose proof (find_none _ _ Hfind a Hin) as Hne.
    now rewrite String.eqb_refl in Hne.
Qed.

Lemma existsb_address (a : string) (ps : list Peer.t) :
  existsb (fun peer => String.eqb (Peer.address peer) a) ps = true
  <-> In a (map Peer.address ps).
Proof.
  rewrite existsb_exists, in_map_iff. split.
  - intros (p & Hin & Heq). apply String.eqb_eq in Heq. eauto.
  - intros (p & Heq & Hin). exists p. split; [exact Hin|].
    now apply String.eqb_eq.
Qed.

Lemma map_delete {A B : Type} (f : A -> B) (i : nat) (l : list A) :
  map f (delete i l) = delete i (map f l).
Proof.
  revert i. induction l as [|x l IH]; intros [|i]; simpl; try reflexivity.
  now rewrite IH.
Qed.

Lemma map_splice1 {A B : Type} (f : A -> B) (i : option nat) (l : list A) :
  map f (splice1 i l) = splice1 i (map f l).
Proof.
  destruct i as [i|]; simpl; rewrite map_delete; [reflexivity|].
  now rewrite length_map.
Qed.

Lemma splice1_In {A : Type} (i : option nat) (l : list A) (x : A) :
  In x (splice1 i l) -> In x l.
Proof.
  rewrite <- !list_elem_of_In. destruct i; simpl;
    apply list_elem_of_delete_inv.
Qed.

Lemma splice1_NoDup {A : Type} (i : option nat) (l : list A) :
  NoDup l -> NoDup (splice1 i l).
Proof.
  intros Hl. destruct i; simpl;
    (eapply sublist_NoDup; [exact Hl | apply sublist_delete]).
Qed.

Lemma on_open_peers_ok (me a : string) (s : Node) :
  a <> "" -> peers_ok me s -> peers_ok me (on_open me a s).
Proof.
  intros Ha (Halign & Hnodup & Hme & Hsock). unfold on_open. simpl.
  destruct (String.eqb a me) eqn:Eme; simpl.
  { rewrite !andb_false_r. repeat split; auto. }
  rewrite !andb_true_r. apply String.eqb_neq in Eme.
  destruct (existsb (fun peer => String.eqb (Peer.address peer) a) (opened s))
    eqn:Hex; simpl.
  - apply existsb_address in Hex. rewrite Halign in Hex.
    assert (Hnf : not_found a (connected s) = false).
    { destruct (not_found a (connected s)) eqn:Hnf; [|reflexivity].
      apply not_found_iff in Hnf; [contradiction | exact Ha]. }
    rewrite Hnf. repeat split; auto.
  - assert (Hnot : ~ In a (connected s)).
    { rewrite <- Halign. intros Hin. apply existsb_address in Hin.
      congruence. }
    assert (Hnf : not_found a (connected s) = true)
      by (now apply not_found_iff).
    rewrite Hnf. unfold peers_ok. simpl. repeat split.
    + rewrite map_app, Halign. reflexivity.
    + apply NoDup_app.
      split; [exact Hnodup|]. split; [|apply NoDup_singleton].
      intros x Hx Hx'. apply list_elem_of_In in Hx.
      apply list_elem_of_singleton in Hx'. now subst x.
    + intros Hin. apply in_app_or in Hin. destruct Hin as [Hin|[E|[]]];
        [contradiction | congruence].
    + intros p Hp. apply in_app_or in Hp. destruct Hp as [Hp|[<-|[]]];
        [now apply Hsock | reflexivity].
Qed.

Lemma on_close_peers_ok (me a : string) (s : Node) :
  peers_ok me s -> peers_ok me (on_close a s).
Proof.
  intros (Halign & Hnodup & Hme & Hsock). unfold on_close, peers_ok. simpl.
  repeat split.
  - now rewrite map_splice1, Halign.
  - now apply splice1_NoDup.
  - intros Hin. now apply splice1_In in Hin.
  - intros p Hp. apply splice1_In in Hp. now apply Hsock.
Qed.

Lemma peers_ok_same (me : string) (s s' : Node) :
  opened s' = opened s /\ connected s' = connected s ->
  peers_ok me s -> peers_ok me s'.
Proof. intros [Ho Hc]. unfold peers_ok. now rewrite Ho, Hc. Qed.

Lemma request_loop_peers (cfg : Options) (index : nat) (s : Node) :
  opened (request_loop cfg index s) = opened s
  /\ connected (request_loop cfg index s) = connected s.
Proof. unfold request_loop. case_match; split; reflexivity. Qed.

Lemma take_block_peers (cfg : Options) (b : Block.t) (s : Node) :
  opened (take_block cfg b s) = opened s
  /\ connected (take_block cfg b s) = connected s.
Proof.
  unfold take_block. cbv zeta.
  match goal with
  | |- context [request_loop cfg 0 ?x] =>
      destruct (request_loop_peers cfg 0 x) as [-> ->]
  end.
  simpl. case_match; split; reflexivity.
Qed.

Lemma on_resume_peers (cfg : Options) (k : nat) (s : Node) :
  opened (on_resume cfg k s) = opened s
  /\ connected (on_resume cfg k s) = connected s.
Proof.
  unfold on_resume. repeat (case_match; simpl; try (split; reflexivity)).
  - match goal with
    | |- context [take_block cfg ?b ?x] =>
        destruct (take_block_peers cfg b x) as [-> ->]
    end.
    split; reflexivity.
  - match goal with
    | |- context [request_loop cfg ?i ?x] =>
        destruct (request_loop_peers cfg i x) as [-> ->]
    end.
    split; reflexivity.
Qed.

Lemma step_peers_ok (cfg : Options) (s : Node) (e : Event) :
  named_sockets e = true ->
  peers_ok (MY_ADDRESS cfg) s -> peers_ok (MY_ADDRESS cfg) (step cfg s e).
Proof.
  intros He Hs. destruct e as [m|a|a| |now|result|v|k]; simpl.
  - destruct m; simpl.
    + unfold connect. case_match; exact Hs.
    + unfold on_CREATE_TRANSACTION. repeat (case_match; simpl; try exact Hs).
    + unfold on_NEW_BLOCK. repeat (case_match; simpl; try exact Hs).
    + unfold on_REQUEST_BLOCK. repeat (case_match; simpl; try exact Hs).
    + unfold on_SEND_BLOCK. repeat (case_match; simpl; try exact Hs).
      eapply peers_ok_same; [apply take_block_peers | exact Hs].
    + exact Hs.
  - apply on_open_peers_ok; [|exact Hs]. simpl in He.
    apply negb_true_iff, String.eqb_neq in He. exact He.
  - now apply on_close_peers_ok.
  - unfold on_sync_timer. case_match; [|exact Hs].
    eapply peers_ok_same; [apply request_loop_peers | exact Hs].
  - unfold on_tick. repeat (case_match; simpl; try exact Hs).
  - unfold on_mined. case_match; exact Hs.
  - unfold handleSendTransaction, sendTransaction.
    repeat (case_match; simplify_eq; simpl; try exact Hs).
  - eapply peers_ok_same; [apply on_resume_peers | exact Hs].
Qed.

Lemma startServer_peers_ok (opts : Options) (sdb : gmap string Account)
    (bdb : gmap string Block.t) :
  peers_ok (MY_ADDRESS opts) (state_of (startServer opts sdb bdb)).
Proof.
  assert (Hempty : forall s, opened s = [] -> connected s = [] ->
                             peers_ok (MY_ADDRESS opts) s).
  { intros s Ho Hc. unfold peers_ok. rewrite Ho, Hc.
    repeat split; [constructor | intros [] | intros p []]. }
  unfold startServer.
  destruct (load_chain (boot opts sdb bdb)) as [s1|e s1] eqn:Hload.
  - assert (Ht : opened s1 = [] /\ connected s1 = []).
    { unfold load_chain, boot in Hload.
      repeat (case_match; simplify_eq; simpl in *; auto). }
    destruct Ht as [Ho Hc].
    destruct (connect_all_emit (MY_ADDRESS opts) (PEERS opts) s1)
      as (es & -> & _).
    repeat (case_match; simpl); now apply Hempty.
  - unfold load_chain, boot in Hload.
    repeat (case_match; simplify_eq; simpl in *; auto).
Qed.

(** The two peer tables stay in step: at every moment [connected] is the list
    of the addresses of [opened], in the same order, without repetition and
    without the node's own address.  This is what makes it sound for the
    close handler to cut [opened] at the index found in [connected]. *)
Theorem peer_tables_stay_aligned (opts : Options) (sdb : gmap string Account)
    (bdb : gmap string Block.t) (events : list Event) :
  forallb named_sockets events = true ->
  peers_ok (MY_ADDRESS opts)
    (run opts (state_of (startServer opts sdb bdb)) events).
Proof.
  generalize (startServer_peers_ok opts sdb bdb).
  generalize (state_of (startServer opts sdb bdb)).
  induction events as [|e events IH]; intros s Hs He; [exact Hs|].
  simpl in He. apply andb_prop in He. destruct He as [He Hes].
  simpl. apply IH; [|exact Hes]. now apply step_peers_ok.
Qed.

Lemma delete_indexOf {A : Type} (f : A -> string) (a : string) (i : nat)
    (l : list A) :
  NoDup (map f l) ->
  indexOf a (map f l) = Some i ->
  delete i l = List.filter (fun x => negb (String.eqb (f x) a)) l.
Proof.
  revert i. induction l as [|x l IH]; intros i Hnd Hi; [discriminate|].
  simpl in Hi, Hnd. apply NoDup_cons in Hnd. destruct Hnd as [Hx Hnd].
  simpl. destruct (String.eqb (f x) a) eqn:Ex.
  - injection Hi as <-. simpl. apply String.eqb_eq in Ex. subst a.
    symmetry. apply forallb_filter_id. apply forallb_forall. intros y Hy.
    apply negb_true_iff, String.eqb_neq. intros E. apply Hx.
    rewrite <- E. apply list_elem_of_In, in_map, Hy.
  - destruct (indexOf a (map f l)) as [j|] eqn:Hj; [|discriminate].
    injection Hi as <-. simpl. f_equal. now apply IH.
Qed.

Lemma In_indexOf (a : string) (l : list string) :
  In a l -> exists i, indexOf a l = Some i.
Proof.
  induction l as [|x l IH]; intros Hin; [destruct Hin|].
  simpl. destruct (String.eqb x a) eqn:Ex; [eauto|].
  destruct Hin as [E|Hin]; [subst; now rewrite String.eqb_refl in Ex|].
  destruct (IH Hin) as [i ->]. eauto.
Qed.

(** When the socket of a connected peer closes, that peer and only that peer
    leaves both tables; the other peers keep their order. *)
Theorem on_close_removes_that_peer (me a : string) (s : Node) :
  peers_ok me s ->
  In a (connected s) ->
  connected (on_close a s)
  = List.filter (fun x => negb (String.eqb x a)) (connected s)
  /\ opened (on_close a s)
     = List.filter (fun p => negb (String.eqb (Peer.address p) a)) (opened s)
  /\ ~ In a (connected (on_close a s)).
Proof.
  intros (Halign & Hnodup & _) Hin.
  destruct (In_indexOf a (connected s) Hin) as [i Hi].
  unfold on_close. simpl. rewrite Hi. simpl.
  assert (Hc : delete i (connected s)
               = List.filter (fun x => negb (String.eqb x a)) (connected s)).
  { apply (delete_indexOf (fun x => x)); now rewrite map_id. }
  split; [exact Hc|]. split.
  - apply (delete_indexOf Peer.address); now rewrite Halign.
  - rewrite Hc. intros Hf. apply filter_In in Hf. destruct Hf as [_ Hf].
    now rewrite String.eqb_refl in Hf.
Qed.

(** Once the socket dialled to a peer has opened, the peer is in both tables,
    and a later handshake that names it does not dial it again. *)
Theorem opened_peer_is_known (me a : string) (s : Node) :
  a <> "" ->
  a <> me ->
  In a (connected (on_open me a s))
  /\ In a (map Peer.address (opened (on_open me a s)))
  /\ connect me a (on_open me a s) = on_open me a s.
Proof.
  intros Ha Hme.
  assert (Hc : In a (connected (on_open me a s))).
  { unfold on_open. simpl. apply String.eqb_neq in Hme. rewrite Hme. simpl.
    rewrite !andb_true_r.
    destruct (existsb _ (opened s)); simpl;
      (destruct (not_found a (connected s)) eqn:Hnf; simpl;
         [apply in_or_app; right; now left|]);
      (destruct (In_dec string_dec a (connected s)) as [Hin|Hnot];
         [exact Hin | apply not_found_iff in Hnot; congruence]). }
  split; [exact Hc|]. split.
  - unfold on_open. simpl. apply String.eqb_neq in Hme. rewrite Hme. simpl.
    rewrite !andb_true_r.
    destruct (existsb _ (opened s)) eqn:Hex; simpl.
    + apply existsb_address in Hex. now destruct (not_found _ _).
    + destruct (not_found _ _); simpl; rewrite map_app;
        apply in_or_app; right; now left.
  - unfold connect.
    destruct (not_found a (connected (on_open me a s))) eqn:Hnf;
      [|reflexivity].
    apply not_found_iff in Hnf; [contradiction | exact Ha].
Qed.

End Peers.

(** ** The query routes *)

Module RPCFacts.

Import RPC.

Lemma parseInt_cases (k : string) :
  parseInt k = NaN \/ exists n, parseInt k = Num n.
Proof.
  unfold parseInt. destruct (strip_sign _) as [sign s2].
  destruct (strip_radix s2) as [radix s3].
  destruct (parse_digits radix s3 None); eauto.
Qed.

Lemma Math_max_nums (l : list jsnum) :
  (forall x, In x l -> exists z, x = Num z) ->
  l <> [] ->
  exists m,
    Math_max l = Num m /\ In (Num m) l /\ (forall z, In (Num z) l -> z <= m).
Proof.
  induction l as [|x l IH]; intros Hnum Hne; [congruence|].
  destruct (Hnum x (or_introl eq_refl)) as [z ->].
  destruct l as [|y l'].
  - exists z. simpl. repeat split; [now left|].
    intros z' [E|[]]. injection E as ->. lia.
  - destruct IH as (m & Hm & Hin & Hmax); [|congruence|].
    { intros x Hx. apply Hnum. now right. }
    exists (Z.max z m).
    change (Math_max (Num z :: y :: l')) with (max2 (Num z) (Math_max (y :: l'))).
    rewrite Hm. simpl max2. repeat split.
    + destruct (Z.max_spec z m) as [[_ ->]|[_ ->]]; [now right | now left].
    + intros z' [E|Hz'].
      * injection E as ->. lia.
      * specialize (Hmax z' Hz'). lia.
Qed.

Lemma filter_numbers (ks : list string) (x : jsnum) :
  In x (List.filter (fun num => negb (is_NaN num)) (map parseInt ks))
  <-> exists k n, In k ks /\ parseInt k = Num n /\ x = Num n.
Proof.
  rewrite filter_In, in_map_iff. split.
  - intros [(k & <- & Hk) Hnan].
    destruct (parseInt_cases k) as [E|[n E]]; rewrite E in *;
      [discriminate | eauto].
  - intros (k & n & Hk & E & ->). split; [|reflexivity]. eauto.
Qed.

Lemma current_spec (db : gmap string Block.t) :
  exists m,
    getCurrentBlockNumber db = Num m
    /\ (forall k n, In k (keys db) -> parseInt k = Num n -> n <= m)
    /\ ((exists k, In k (keys db) /\ parseInt k = Num m)
        \/ (m = 0 /\ forall k, In k (keys db) -> parseInt k = NaN)).
Proof.
  unfold getCurrentBlockNumber.
  destruct (List.filter (fun num => negb (is_NaN num))
              (map parseInt (keys db))) as [|x l] eqn:Hf.
  - exists 0. simpl. split; [reflexivity|].
    assert (Hnone : forall k, In k (keys db) -> parseInt k = NaN).
    { intros k Hk. destruct (parseInt_cases k) as [E|[n E]]; [exact E|].
      assert (Hin : In (Num n) []); [|destruct Hin].
      rewrite <- Hf. apply filter_numbers. eauto. }
    split; [|right; auto].
    intros k n Hk E. rewrite (Hnone k Hk) in E. discriminate.
  - destruct (Math_max_nums (x :: l)) as (m & Hm & Hin & Hmax);
      [|congruence|].
    { intros y Hy. rewrite <- Hf in Hy. apply filter_numbers in Hy.
      destruct Hy as (_ & n & _ & _ & ->). eauto. }
    exists m. simpl Nat.ltb. cbv iota. split; [exact Hm|]. split.
    + intros k n Hk E. apply Hmax. rewrite <- Hf. apply filter_numbers. eauto.
    + left. rewrite <- Hf in Hin. apply filter_numbers in Hin.
      destruct Hin as (k & n & Hk & E & En). injection En as ->. eauto.
Qed.

Lemma stored_below_current (db : gmap string Block.t) (n : Z) (b : Block.t) :
  db !! toString n = Some b ->
  exists m, getCurrentBlockNumber db = Num m /\ n <= m.
Proof.
  intros Hb.
  destruct (current_spec db) as (m & Hm & Hmax & _).
  exists m. split; [exact Hm|].
  apply (Hmax (toString n)); [|apply JSFacts.parseInt_toString].
  apply keys_dom, elem_of_dom. eauto.
Qed.

(** [handleGetBlockByNumber] returns exactly the block stored under the
    printed number, for every number from 0 on: its "too high" test never
    hides a stored block, and it never answers a negative number. *)
Theorem handleGetBlockByNumber_iff (n : Z) (db : gmap string Block.t)
    (b : Block.t) :
  handleGetBlockByNumber (PNumber n) db = Success (PBlock b)
  <-> 0 <= n /\ db !! toString n = Some b.
Proof.
  unfold handleGetBlockByNumber. split.
  - destruct (n <? 0) eqn:Hn; [discriminate|]. apply Z.ltb_ge in Hn.
    destruct (JS.gt (Num n) (getCurrentBlockNumber db)); [discriminate|].
    destruct (db !! toString n) as [b'|]; [|discriminate].
    intros E. injection E as ->. auto.
  - intros [Hn Hb].
    replace (n <? 0) with false by (symmetry; apply Z.ltb_ge; lia).
    destruct (stored_below_current db n b Hb) as (m & -> & Hle).
    simpl. replace (m <? n) with false by (symmetry; apply Z.ltb_ge; lia).
    now rewrite Hb.
Qed.

(** [handleGetTransactionByBlockNumberAndIndex] answers with a transaction
    exactly for a stored block of positive number and an index inside its
    transaction list, and then with the transaction at that index: the
    transactions of block 0 are never served and no index reads outside the
    list. *)
Theorem handleGetTransactionByBlockNumberAndIndex_iff (n i : Z)
    (db : gmap string Block.t) (t : option Transaction.t) :
  handleGetTransactionByBlockNumberAndIndex (PNumber n) (PNumber i) db
  = Success (PTransaction t)
  <-> exists block tx,
        0 < n
        /\ db !! toString n = Some block
        /\ 0 <= i
        /\ Block.transactions block !! Z.to_nat i = Some tx
        /\ t = Some tx.
Proof.
  unfold handleGetTransactionByBlockNumberAndIndex, invalid_block_number.
  simpl JS.le. split.
  - destruct (n <=? 0) eqn:Hn; [discriminate|]. apply Z.leb_gt in Hn.
    rewrite orb_false_l.
    destruct (JS.gt (Num n) (getCurrentBlockNumber db)); [discriminate|].
    destruct (db !! toString n) as [block|]; [|discriminate].
    destruct (i <? 0) eqn:Hi; [discriminate|]. apply Z.ltb_ge in Hi.
    rewrite orb_false_l.
    destruct (i >=? Z.of_nat (length (Block.transactions block))) eqn:Hlen;
      [discriminate|].
    intros E. injection E as <-.
    assert (Hlt : (Z.to_nat i < length (Block.transactions block))%nat).
    { assert (~ (Z.of_nat (length (Block.transactions block)) <= i))
        by (rewrite <- Z.geb_le; congruence).
      lia. }
    apply lookup_lt_is_Some in Hlt. destruct Hlt as [tx Htx].
    exists block, tx. rewrite Htx. auto.
  - intros (block & tx & Hn & Hb & Hi & Htx & ->).
    replace (n <=? 0) with false by (symmetry; apply Z.leb_gt; lia).
    destruct (stored_below_current db n block Hb) as (m & -> & Hle).
    simpl. replace (m <? n) with false by (symmetry; apply Z.ltb_ge; lia).
    rewrite Hb.
    replace (i <? 0) with false by (symmetry; apply Z.ltb_ge; lia).
    pose proof (lookup_lt_Some _ _ _ Htx) as Hlt.
    destruct (i >=? Z.of_nat (length (Block.transactions block))) eqn:Hlen.
    + apply Z.geb_le in Hlen. lia.
    + simpl. now rewrite Htx.
Qed.

Lemma current_on_well_keyed (db : gmap string Block.t) :
  well_keyed db ->
  db <> ∅ ->
  exists head,
    getCurrentBlockNumber db = Num (Block.blockNumber head)
    /\ db !! toString (Block.blockNumber head) = Some head
    /\ (forall k b, db !! k = Some b ->
          Block.blockNumber b <= Block.blockNumber head).
Proof.
  intros Hdb Hne.
  destruct (current_spec db) as (m & Hm & Hmax & Hwhich).
  assert (Hparse : forall k b, db !! k = Some b ->
                     In k (keys db) /\ parseInt k = Num (Block.blockNumber b)).
  { intros k b Hb. split; [apply keys_dom, elem_of_dom; eauto|].
    rewrite (Hdb _ _ Hb). apply JSFacts.parseInt_toString. }
  destruct Hwhich as [(k & Hk & Ek)|(_ & Hnone)].
  - apply keys_dom, elem_of_dom in Hk. destruct Hk as [head Hhead].
    destruct (Hparse _ _ Hhead) as [_ E]. rewrite E in Ek. injection Ek as <-.
    exists head. split; [exact Hm|]. split.
    + now rewrite <- (Hdb _ _ Hhead).
    + intros k' b Hb. destruct (Hparse _ _ Hb) as [Hin E']. eauto.
  - exfalso. destruct (map_choose db Hne) as (k & b & Hb).
    destruct (Hparse _ _ Hb) as [Hin E]. rewrite (Hnone k Hin) in E.
    discriminate.
Qed.

(** On a store whose blocks sit under the decimal string of their own
    number [getCurrentBlockNumber] yields 0 when the store is empty and
    otherwise the number of a stored block that no stored block exceeds. *)
Theorem getCurrentBlockNumber_is_largest_number (db : gmap string Block.t) :
  well_keyed db ->
  (db = ∅ -> getCurrentBlockNumber db = Num 0)
  /\ (db <> ∅ ->
      exists head,
        getCurrentBlockNumber db = Num (Block.blockNumber head)
        /\ db !! toString (Block.blockNumber head) = Some head
        /\ (forall k b, db !! k = Some b ->
              Block.blockNumber b <= Block.blockNumber head)).
Proof.
  intros Hdb. split.
  - intros ->. reflexivity.
  - now apply current_on_well_keyed.
Qed.

(** On a well keyed store that holds a block of positive number,
    [handleGetWork] reports the hash and the nonce of the stored block with
    the largest number. *)
Theorem handleGetWork_reports_head (db : gmap string Block.t) :
  well_keyed db ->
  (exists k b, db !! k = Some b /\ 0 < Block.blockNumber b) ->
  exists head,
    handleGetWork db
    = Success (PWork (Block.hash head) (Block.nonce head)
                 (Num (Block.blockNumber head)))
    /\ db !! toString (Block.blockNumber head) = Some head
    /\ (forall k b, db !! k = Some b ->
          Block.blockNumber b <= Block.blockNumber head).
Proof.
  intros Hdb (k & b & Hb & Hpos).
  destruct (current_on_well_keyed db Hdb) as (head & Hcur & Hhead & Hmax).
  { intros E. rewrite E, lookup_empty in Hb. discriminate. }
  exists head. split; [|auto].
  unfold handleGetWork. rewrite Hcur. simpl.
  pose proof (Hmax _ _ Hb) as Hle.
  replace (Block.blockNumber head =? 0) with false
    by (symmetry; apply Z.eqb_neq; lia).
  now rewrite Hhead.
Qed.

(** A chain that consists of block 0 only, or a store that is still empty,
    makes [handleGetWork] answer "No blocks available": the route takes
    height 0 for an empty chain. *)
Theorem handleGetWork_genesis_only (db : gmap string Block.t) :
  well_keyed db ->
  (forall k b, db !! k = Some b -> Block.blockNumber b = 0) ->
  handleGetWork db = Failure 400 "No blocks available".
Proof.
  intros Hdb Hzero. unfold handleGetWork.
  destruct (decide (db = ∅)) as [->|Hne].
  - reflexivity.
  - destruct (current_on_well_keyed db Hdb Hne) as (head & -> & Hhead & _).
    rewrite (Hzero _ _ Hhead). reflexivity.
Qed.

End RPCFacts.

(** ** The explorer front *)

Module ExplorerFacts.

Import Explorer.

Lemma substring_all (s : string) :
  String.substring 0 (String.length s) s = s.
Proof. induction s as [|c s IH]; simpl; [reflexivity | now rewrite IH]. Qed.

(** Every request under [/rpc/] (other than a preflight) is proxied to port
    3000 with the leading [/rpc] cut off and the rest of the path, which
    again starts with a slash, kept as it is. *)
Theorem route_strips_rpc_prefix (method rest : string) :
  method <> "OPTIONS" ->
  route method ("/rpc/" ++ rest)%string = ProxyTo 3000 ("/" ++ rest)%string.
Proof.
  intros Hm. unfold route, startsWith. apply String.eqb_neq in Hm. rewrite Hm.
  change ("/rpc/" ++ rest)%string
    with (String "/" (String "r" (String "p" (String "c" (String "/" rest))))).
  assert (Hp : String.prefix "" rest = true) by (destruct rest; reflexivity).
  simpl. rewrite substring_all, Hp. reflexivity.
Qed.

End ExplorerFacts.

(** ** The further properties on the concrete chain *)

Lemma well_keyed_genesis_only : well_keyed Scenario.genesis_only.
Proof.
  intros k b Hb. unfold Scenario.genesis_only in Hb.
  apply lookup_singleton_Some in Hb. destruct Hb as [<- <-]. reflexivity.
Qed.

Lemma well_keyed_empty : well_keyed ∅.
Proof. intros k b Hb. rewrite lookup_empty in Hb. discriminate. Qed.

Lemma well_keyed_two_blocks : well_keyed two_blocks.
Proof.
  apply (well_keyed_insert Scenario.block1), well_keyed_genesis_only.
Qed.

Lemma peers_ok_two_peers :
  peers_ok "ws://a"
    (Scenario.node Scenario.funds []
       [Scenario.peer "ws://b"; Scenario.peer "ws://c"] false (Num 1) None).
Proof.
  unfold peers_ok. simpl. repeat split.
  - apply (bool_decide_unpack _). vm_compute. exact I.
  - intros [E|[E|[]]]; discriminate.
  - intros p [<-|[<-|[]]]; reflexivity.
Qed.

Lemma blockDB_stays_well_keyed_witness :
  well_keyed
    (blockDB
       (run (H := Scenario.core) (Scenario.options false true)
          (state_of (startServer (H := Scenario.core)
                       (Scenario.options false true) ∅ ∅))
          sync_two_blocks))
  /\ well_keyed
       (blockDB
          (run (H := Scenario.core) (Scenario.options true false)
             (state_of (startServer (H := Scenario.core)
                          (Scenario.options true false) ∅ ∅))
             mine_then_gossip)).
Proof.
  split; apply (blockDB_stays_well_keyed (H := Scenario.core));
    exact well_keyed_empty.
Defined.

(** On those two runs the store is written by both paths of the block
    response handler, by start-up, by the mining callback and by the new
    block handler. *)
Example stores_written_on_those_runs :
  blockDB
    (run (H := Scenario.core) (Scenario.options false true)
       (state_of (startServer (H := Scenario.core)
                    (Scenario.options false true) ∅ ∅))
       sync_two_blocks)
  = <[ "2" := block2 ]> (<[ "1" := Scenario.block1 ]> ∅)
  /\ blockDB
       (run (H := Scenario.core) (Scenario.options true false)
          (state_of (startServer (H := Scenario.core)
                       (Scenario.options true false) ∅ ∅))
          mine_then_gossip)
     = <[ "2" := block2 ]>
         (<[ "1" := Scenario.block1 ]> (<[ "0" := Scenario.genesis ]> ∅)).
Proof. split; vm_compute; reflexivity. Qed.

Lemma load_chain_resumes_from_highest_witness :
  exists head,
    load_chain (H := Scenario.core) on_two_blocks
    = Done (set_chainInfo
              (set_difficulty (Block.difficulty head)
                 (set_latestBlock head (chainInfo on_two_blocks)))
              on_two_blocks)
    /\ blockDB on_two_blocks !! toString (Block.blockNumber head) = Some head
    /\ (forall k b, blockDB on_two_blocks !! k = Some b ->
          Block.blockNumber b <= Block.blockNumber head).
Proof.
  apply (load_chain_resumes_from_highest (H := Scenario.core)).
  - reflexivity.
  - intros E. apply (f_equal (fun m => m !! "1")) in E. vm_compute in E.
    discriminate.
  - exact well_keyed_two_blocks.
Defined.

Lemma on_REQUEST_BLOCK_serves_stored_block_witness :
  on_REQUEST_BLOCK (Num 1) "ws://b" on_two_blocks
  = Done (emit [Send "ws://b" (SEND_BLOCK Scenario.block1)] on_two_blocks)
  /\ Block.blockNumber Scenario.block1 = 1.
Proof.
  apply (on_REQUEST_BLOCK_serves_stored_block 1 "ws://b" on_two_blocks
           (Scenario.peer "ws://b") Scenario.block1).
  - reflexivity.
  - reflexivity.
  - exact well_keyed_two_blocks.
  - lia.
  - reflexivity.
Defined.

Lemma on_REQUEST_BLOCK_out_of_range_witness :
  on_REQUEST_BLOCK (Num 0) "ws://b" on_two_blocks = Done on_two_blocks
  /\ on_REQUEST_BLOCK (Num 2) "ws://b" on_two_blocks = Done on_two_blocks.
Proof.
  split.
  - apply (on_REQUEST_BLOCK_out_of_range 0 "ws://b" on_two_blocks
             (Scenario.peer "ws://b")).
    + reflexivity.
    + exact well_keyed_two_blocks.
    + left. lia.
  - apply (on_REQUEST_BLOCK_out_of_range 2 "ws://b" on_two_blocks
             (Scenario.peer "ws://b")).
    + reflexivity.
    + exact well_keyed_two_blocks.
    + right. intros k b Hb.
      pose proof (well_keyed_two_blocks k b Hb) as Hk. subst k.
      unfold on_two_blocks, two_blocks, Scenario.genesis_only in Hb.
      simpl in Hb. rewrite lookup_insert in Hb.
      destruct (decide ("1" = toString (Block.blockNumber b))) as [_|_].
      * injection Hb as <-. simpl. lia.
      * apply lookup_singleton_Some in Hb. destruct Hb as [_ <-]. simpl. lia.
Defined.

Lemma on_NEW_BLOCK_accepts_witness :
  exists s',
    on_NEW_BLOCK (H := Scenario.core) (Scenario.options true false)
      Scenario.block1 (Scenario.synced []) = Done s'
    /\ accepted_block (H := Scenario.core) (Scenario.options true false)
         Scenario.block1 (Scenario.synced []) s'.
Proof.
  apply (on_NEW_BLOCK_accepts (H := Scenario.core)).
  - simpl. discriminate.
  - left. reflexivity.
  - reflexivity.
Defined.

Lemma accepted_block_is_served_witness :
  exists s',
    on_NEW_BLOCK (H := Scenario.core) (Scenario.options true false)
      Scenario.block1 (Scenario.synced []) = Done s'
    /\ on_REQUEST_BLOCK (Num 1) "ws://b" s'
       = Done (emit [Send "ws://b" (SEND_BLOCK Scenario.block1)] s').
Proof.
  apply (accepted_block_is_served (H := Scenario.core)
           (Scenario.options true false) Scenario.block1 (Scenario.synced [])
           "ws://b" (Scenario.peer "ws://b")).
  - simpl. discriminate.
  - left. reflexivity.
  - reflexivity.
  - exact well_keyed_genesis_only.
  - simpl. lia.
  - reflexivity.
Defined.

Lemma on_SEND_BLOCK_first_block_repeat_ignored_witness :
  on_SEND_BLOCK (H := Scenario.core) (Scenario.options false true)
    Scenario.block1 awaiting2
  = Done awaiting2.
Proof.
  apply (on_SEND_BLOCK_first_block_repeat_ignored (H := Scenario.core)
           (Scenario.options false true) Scenario.block1 syncing2).
  reflexivity.
Defined.

Lemma on_SEND_BLOCK_repeat_taken_twice_witness :
  let s' := run (H := Scenario.core) (Scenario.options false true) awaiting2
              [EvMessage (SEND_BLOCK paying2); EvMessage (SEND_BLOCK paying2);
               EvResume 1; EvResume 1] in
  currentSyncBlock s' = Num (2 + 2)
  /\ stateDB s'
     = changeState (Core := Scenario.core) paying2
         (changeState (Core := Scenario.core) paying2 (stateDB awaiting2)
            false) false.
Proof.
  apply (on_SEND_BLOCK_repeat_taken_twice (H := Scenario.core)
           (Scenario.options false true) paying2 awaiting2).
  - reflexivity.
  - reflexivity.
  - discriminate.
  - reflexivity.
Defined.

(** On that run the recipient of the block's transaction is credited twice
    and the node ends up awaiting height 4. *)
Example repeated_response_credits_twice :
  let s' := run (H := Scenario.core) (Scenario.options false true) awaiting2
              [EvMessage (SEND_BLOCK paying2); EvMessage (SEND_BLOCK paying2);
               EvResume 1; EvResume 1] in
  balance <$> stateDB s' !! "bob" = Some 20
  /\ currentSyncBlock s' = Num 4.
Proof. vm_compute. split; reflexivity. Qed.

Lemma sync_mode_never_resumes_witness :
  let s := run (H := Scenario.core) (Scenario.options false true)
             cleared_with_parked [EvResume 1; EvSyncTimer] in
  ENABLE_CHAIN_REQUEST s = false
  /\ forall block,
       on_SEND_BLOCK (H := Scenario.core) (Scenario.options false true)
         block s = Done s.
Proof.
  apply (sync_mode_never_resumes (H := Scenario.core)
           (Scenario.options false true) cleared_with_parked).
  reflexivity.
Defined.

(** On that run the response parked before the flag was cleared is still
    taken when its verification is over: the sync height moves from 2 to 3
    on a node that no longer syncs. *)
Example parked_response_taken_after_sync :
  ENABLE_CHAIN_REQUEST cleared_with_parked = false
  /\ currentSyncBlock cleared_with_parked = Num 2
  /\ currentSyncBlock
       (run (H := Scenario.core) (Scenario.options false true)
          cleared_with_parked [EvResume 1; EvSyncTimer]) = Num 3.
Proof. vm_compute. repeat split. Qed.

Lemma syncing_node_pool_empty_witness :
  pool_of
    (run (H := Scenario.core) (Scenario.options false true)
       (state_of (startServer (H := Scenario.core)
                    (Scenario.options false true) alice_funded ∅))
       replayed_submissions)
  = [].
Proof.
  apply (syncing_node_pool_empty (H := Scenario.core)).
  - reflexivity.
  - vm_compute. reflexivity.
Defined.

Lemma remote_block_preempts_mining_witness :
  exists s1,
    on_NEW_BLOCK (H := Scenario.core) (Scenario.options true false)
      Scenario.block1 (Scenario.synced []) = Done s1
    /\ mined s1 = true
    /\ chainInfo (on_mined (H := Scenario.core) (Scenario.options true false)
                    fork1 s1) = chainInfo s1
    /\ ChainInfo.latestBlock
         (chainInfo (on_mined (H := Scenario.core)
                       (Scenario.options true false) fork1 s1))
       = Scenario.block1
    /\ blockDB (on_mined (H := Scenario.core) (Scenario.options true false)
                  fork1 s1) = blockDB s1
    /\ stateDB (on_mined (H := Scenario.core) (Scenario.options true false)
                  fork1 s1) = stateDB s1
    /\ mined (on_mined (H := Scenario.core) (Scenario.options true false)
                fork1 s1) = false
    /\ worker (on_mined (H := Scenario.core) (Scenario.options true false)
                 fork1 s1) = 2%nat
    /\ trace (on_mined (H := Scenario.core) (Scenario.options true false)
                fork1 s1) = trace s1 ++ [WorkerRespawn].
Proof.
  apply (remote_block_preempts_mining (H := Scenario.core)
           (Scenario.options true false) Scenario.block1 fork1
           (Scenario.synced [])).
  - reflexivity.
  - simpl. discriminate.
  - left. reflexivity.
  - reflexivity.
Defined.

Lemma idle_ticks_do_nothing_witness :
  let s := state_of (startServer (H := Scenario.core)
                       (Scenario.options true false) alice_funded ∅) in
  run (H := Scenario.core) (Scenario.options true false)
    (on_tick (H := Scenario.core) (Scenario.options true false) 1 s)
    [EvTick 2; EvTick 3]
  = on_tick (H := Scenario.core) (Scenario.options true false) 1 s.
Proof.
  apply (idle_ticks_do_nothing (H := Scenario.core)). reflexivity.
Defined.

Lemma peer_tables_stay_aligned_witness :
  peers_ok "ws://a"
    (run (H := Scenario.core) (Scenario.options false false)
       (state_of (startServer (H := Scenario.core)
                    (Scenario.options false false) alice_funded ∅))
       [EvOpen "ws://b"; EvOpen "ws://c"; EvOpen "ws://b"; EvClose "ws://b"]).
Proof.
  apply (peer_tables_stay_aligned (H := Scenario.core)
           (Scenario.options false false)).
  reflexivity.
Defined.

Lemma on_close_removes_that_peer_witness :
  let s := Scenario.node Scenario.funds []
             [Scenario.peer "ws://b"; Scenario.peer "ws://c"] false (Num 1)
             None in
  connected (on_close "ws://b" s)
  = List.filter (fun x => negb (String.eqb x "ws://b")) (connected s)
  /\ opened (on_close "ws://b" s)
     = List.filter (fun p => negb (String.eqb (Peer.address p) "ws://b"))
         (opened s)
  /\ ~ In "ws://b" (connected (on_close "ws://b" s)).
Proof.
  apply (on_close_removes_that_peer "ws://a").
  - exact peers_ok_two_peers.
  - simpl. now left.
Defined.

Lemma opened_peer_is_known_witness :
  In "ws://c" (connected (on_open "ws://a" "ws://c" (Scenario.synced [])))
  /\ In "ws://c"
       (map Peer.address
          (opened (on_open "ws://a" "ws://c" (Scenario.synced []))))
  /\ connect "ws://a" "ws://c" (on_open "ws://a" "ws://c" (Scenario.synced []))
     = on_open "ws://a" "ws://c" (Scenario.synced []).
Proof. apply opened_peer_is_known; discriminate. Defined.

Lemma handleGetWork_reports_head_witness :
  exists head,
    RPC.handleGetWork two_blocks
    = RPC.Success (RPC.PWork (Block.hash head) (Block.nonce head)
                     (Num (Block.blockNumber head)))
    /\ two_blocks !! toString (Block.blockNumber head) = Some head
    /\ (forall k b, two_blocks !! k = Some b ->
          Block.blockNumber b <= Block.blockNumber head).
Proof.
  apply RPCFacts.handleGetWork_reports_head.
  - exact well_keyed_two_blocks.
  - exists "1", Scenario.block1. split; [reflexivity | simpl; lia].
Defined.

Lemma getCurrentBlockNumber_is_largest_number_witness :
  (two_blocks = ∅ -> RPC.getCurrentBlockNumber two_blocks = Num 0)
  /\ (two_blocks <> ∅ ->
      exists head,
        RPC.getCurrentBlockNumber two_blocks = Num (Block.blockNumber head)
        /\ two_blocks !! toString (Block.blockNumber head) = Some head
        /\ (forall k b, two_blocks !! k = Some b ->
              Block.blockNumber b <= Block.blockNumber head)).
Proof.
  apply RPCFacts.getCurrentBlockNumber_is_largest_number.
  exact well_keyed_two_blocks.
Defined.

Example getCurrentBlockNumber_on_two_blocks :
  RPC.getCurrentBlockNumber two_blocks = Num 1
  /\ RPC.getCurrentBlockNumber ∅ = Num 0.
Proof. split; reflexivity. Qed.

Lemma handleGetWork_genesis_only_witness :
  RPC.handleGetWork Scenario.genesis_only
  = RPC.Failure 400 "No blocks available".
Proof.
  apply RPCFacts.handleGetWork_genesis_only.
  - exact well_keyed_genesis_only.
  - intros k b Hb. unfold Scenario.genesis_only in Hb.
    apply lookup_singleton_Some in Hb. destruct Hb as [_ <-]. reflexivity.
Defined.

Lemma route_strips_rpc_prefix_witness :
  Explorer.route "POST" "/rpc/getBalance" = Explorer.ProxyTo 3000 "/getBalance".
Proof.
  apply (ExplorerFacts.route_strips_rpc_prefix "POST" "getBalance").
  discriminate.
Defined.

(** The routes on explicit requests. *)
Example replace_first_occurrence_only :
  Explorer.replace "b" "X" "abcb" = "aXcb".
Proof. reflexivity. Qed.

Example route_pages_and_unknown :
  Explorer.route "GET" "/dashboard" = Explorer.ServeFile "./explorer.html"
  /\ Explorer.route "GET" "/rpc" = Explorer.NotFound
  /\ Explorer.route "OPTIONS" "/rpc/status" = Explorer.Preflight.
Proof. repeat split. Qed.

Example getBlockByNumber_on_two_blocks :
  RPC.handleGetBlockByNumber (RPC.PNumber 1) two_blocks
  = RPC.Success (RPC.PBlock Scenario.block1)
  /\ RPC.handleGetBlockByNumber (RPC.PNumber 2) two_blocks
     = RPC.Failure 400 "Block number too high"
  /\ RPC.handleGetBlockByNumber (RPC.PNumber (-1)) two_blocks
     = RPC.Failure 400 "Invalid request: valid blockNumber parameter required".
Proof. vm_compute. repeat split. Qed.

(** ** A block found by the node's own worker *)

Section OwnBlock.

Context `{Core}.

(** A worker result that was not pre-empted is stored under its printed
    number, becomes the head, moves the state and the difficulty,
    re-validates the pool and is announced to every open peer; after that the
    worker is respawned. *)
Theorem mined_block_stored_and_broadcast (cfg : Options) (result : Block.t)
    (s : Node) :
  mined s = false ->
  blockDB (on_mined cfg result s)
  = <[toString (Block.blockNumber result) := result]> (blockDB s)
  /\ ChainInfo.latestBlock (chainInfo (on_mined cfg result s)) = result
  /\ ChainInfo.difficulty (chainInfo (on_mined cfg result s))
     = updateDifficulty result (chainInfo s) (blockDB s)
  /\ stateDB (on_mined cfg result s)
     = changeState result (stateDB s) (ENABLE_LOGGING cfg)
  /\ pool_of (on_mined cfg result s)
     = revalidate (pool_of s) (stateDB (on_mined cfg result s))
  /\ valid_pool (on_mined cfg result s)
  /\ mined (on_mined cfg result s) = false
  /\ worker (on_mined cfg result s) = S (worker s)
  /\ trace (on_mined cfg result s)
     = trace s ++ sendMessage (NEW_BLOCK result) (opened s) ++ [WorkerRespawn].
Proof.
  intros Hmined. unfold on_mined, valid_pool, pool_of. rewrite Hmined. simpl.
  rewrite <- app_assoc. repeat split; auto.
  apply List.Forall_forall. intros tx Hin. unfold revalidate in Hin.
  apply filter_In in Hin. tauto.
Qed.

End OwnBlock.

Lemma mined_block_stored_and_broadcast_witness :
  let s' := on_mined (H := Scenario.core) (Scenario.options true false)
              Scenario.block1 (Scenario.synced []) in
  blockDB s' !! "1" = Some Scenario.block1
  /\ ChainInfo.latestBlock (chainInfo s') = Scenario.block1
  /\ trace s' = [Send "ws://b" (NEW_BLOCK Scenario.block1); WorkerRespawn].
Proof.
  destruct (mined_block_stored_and_broadcast (H := Scenario.core)
              (Scenario.options true false) Scenario.block1
              (Scenario.synced []) eq_refl)
    as (Hdb & Hhead & _ & _ & _ & _ & _ & _ & Htrace).
  split; [|split].
  - rewrite Hdb. apply lookup_insert_eq.
  - exact Hhead.
  - exact Htrace.
Defined.

Section Admission.

Context `{Core}.

(** On a synced node whose pooled transactions of the sender carry the same
    contract gas as the incoming transaction (in particular when none
    carries any), the transaction handler follows the rule of its comment
    exactly: under the rule the transaction is pooled and sent on to every
    open peer, otherwise the node is left untouched. *)
Theorem create_transaction_follows_rule (tx : Transaction.t) (s : Node) :
  ENABLE_CHAIN_REQUEST s = false ->
  (forall tx', In tx' (pool_of s) ->
     senderAddress tx' = senderAddress tx ->
     contractGas_or0 (Transaction.additionalData tx')
     = contractGas_or0 (Transaction.additionalData tx)) ->
  (documented_rule tx s /\ on_CREATE_TRANSACTION tx s = Done (admitted tx s))
  \/ (~ documented_rule tx s /\ on_CREATE_TRANSACTION tx s = Done s).
Proof.
  intros Hsync Hsame. rewrite (on_CREATE_TRANSACTION_admits tx s Hsync).
  pose proof (admits_documented_rule tx s Hsame) as Hrule.
  fold (documented_rule tx s) in Hrule.
  destruct (admits tx s).
  - left. split; [now apply Hrule | reflexivity].
  - right. split; [|reflexivity]. intros Hr. apply Hrule in Hr. discriminate.
Qed.

End Admission.

Lemma create_transaction_follows_rule_witness :
  let pooled := Scenario.pay "alice" "bob" 10 None 1 in
  let tx := Scenario.pay "alice" "carol" 5 None 2 in
  let s := Scenario.synced [pooled] in
  (documented_rule (H := Scenario.core) tx s
   /\ on_CREATE_TRANSACTION (H := Scenario.core) tx s
      = Done (admitted tx s))
  \/ (~ documented_rule (H := Scenario.core) tx s
      /\ on_CREATE_TRANSACTION (H := Scenario.core) tx s = Done s).
Proof.
  intros pooled tx s.
  apply (create_transaction_follows_rule (H := Scenario.core) tx s).
  - reflexivity.
  - intros tx' [<-|[]] _. reflexivity.
Defined.
